(** * The tiger POMDP reduced to a belief-grid MDP (pomdp_tiger.ipynb)

    A shallow embedding of the notebook's functions [prob_TL], [prob_TR],
    [bayes_update_TL], [bayes_update_TR], [nearest_idx] and [tiger_mdp],
    together with the NumPy, SciPy and quantecon primitives they call
    ([np.linspace], [np.searchsorted], [argmin], slice assignment into
    [np.empty] arrays, [coo_matrix], [sum_duplicates] and the constructor
    [DiscreteDP]).

    Number models.  The program is embedded twice.

    - The exact model (top level).  A finite float64 is modelled by the
      rational it denotes and the arithmetic on finite values is exact ([Q]
      with [==]); the special results of a float division by zero (NaN and
      the infinities) are modelled, because the program can produce them.
      It carries the statements that rounding does not touch: indices,
      array shapes, the order of values, which cells are written, which
      calls raise.

    - The binary64 model (module [F64]).  Every number is a primitive float
      and every operation the IEEE 754 one, so rounding, overflow, signed
      zeros, infinities and NaN are as in the running program.  It carries
      the statements about computed values: sums of probabilities,
      midpoints, grid samples and distances. *)

From Stdlib Require Import QArith Qabs Qfield ZArith List Arith Bool Lia Lqa.
From Stdlib Require Import Permutation Floats.
Import ListNotations.

Local Open Scope Q_scope.

(** ** Outcomes of a Python call *)

Module Py.

Inductive exception : Type :=
| ValueError          (* NumPy and SciPy shape, index and empty-sequence errors *)
| ZeroDivisionError   (* division of a plain Python number by zero *)
| UninitializedRead.  (* model marker: a cell of np.empty read before written *)

Inductive result (A : Type) : Type :=
| Ok (a : A)
| Raise (e : exception).

Arguments Ok {A} a.
Arguments Raise {A} e.

Definition bind {A B : Type} (m : result A) (k : A -> result B) : result B :=
  match m with
  | Ok a => k a
  | Raise e => Raise e
  end.


End Py.

Import Py.

Notation "x <- m ;; k" := (Py.bind m (fun x => k))
  (at level 61, m at next level, right associativity).

(** ** Float results, as far as the program can produce them *)

Inductive npfloat : Type :=
| Fin (q : Q)
| PInf
| NInf
| NaN.

(** Elementwise [x / y] on NumPy arrays: a zero divisor raises nothing (the
    default error state only warns) and yields NaN for [0/0] and an infinity
    with the sign of the numerator otherwise. *)
Definition np_true_divide (x y : Q) : npfloat :=
  if Qeq_bool y 0 then
    if Qeq_bool x 0 then NaN
    else if Qlt_le_dec 0 x then PInf else NInf
  else Fin (x / y).


(** The order [np.searchsorted] compares with: the usual one, NaN last. *)
Definition np_less (a : Q) (v : npfloat) : bool :=
  match v with
  | Fin q => if Qlt_le_dec a q then true else false
  | PInf => true
  | NInf => false
  | NaN => true
  end.

(** The same order between two keys. *)
Definition npfloat_less (a b : npfloat) : bool :=
  match a, b with
  | NaN, _ => false
  | _, NaN => true
  | _, NInf => false
  | NInf, _ => true
  | PInf, _ => false
  | _, PInf => true
  | Fin x, Fin y => if Qlt_le_dec x y then true else false
  end.

(** The operands of the notebook's functions are duck-typed.  What [/]
    does on a zero divisor depends on their run-time type: plain Python
    numbers raise ZeroDivisionError, NumPy arrays (what [tiger_mdp] passes)
    go through [np_true_divide]. *)
Inductive operand : Type :=
| PyNumber
| NdArray.

Definition true_divide (k : operand) (x y : Q) : result npfloat :=
  match k with
  | PyNumber => if Qeq_bool y 0 then Raise ZeroDivisionError else Ok (Fin (x / y))
  | NdArray => Ok (np_true_divide x y)
  end.

(** ** Observation model and Bayes update (notebook cell 3) *)

Definition noise_prob_default : Q := 15 # 100.

Definition prob_TL (belief noise_prob_L noise_prob_R : Q) : Q :=
  (1 - noise_prob_L) * (1 - belief) + noise_prob_R * belief.

Definition prob_TR (belief noise_prob_L noise_prob_R : Q) : Q :=
  noise_prob_L * (1 - belief) + (1 - noise_prob_R) * belief.

Definition bayes_update_TL (k : operand) (belief noise_prob_L noise_prob_R : Q)
  : result npfloat :=
  true_divide k (noise_prob_R * belief)
                (prob_TL belief noise_prob_L noise_prob_R).

Definition bayes_update_TR (k : operand) (belief noise_prob_L noise_prob_R : Q)
  : result npfloat :=
  true_divide k ((1 - noise_prob_R) * belief)
                (prob_TR belief noise_prob_L noise_prob_R).

(** ** NumPy primitives *)

Definition arange (n : nat) : list nat := seq 0 n.

(** [np.arange(start, stop, step)] for a positive step. *)
Definition arange_step (start stop step : nat) : list nat :=
  map (fun k => (start + k * step)%nat)
      (seq 0 ((stop - start + (step - 1)) / step)).

(** [np.repeat(a, k)] and [np.tile(a, k)]. *)
Definition np_repeat {A : Type} (a : list A) (k : nat) : list A :=
  flat_map (fun x => repeat x k) a.

Definition np_tile {A : Type} (a : list A) (k : nat) : list A :=
  concat (repeat a k).

(** [np.linspace(start, stop, num)]: [arange(num) * step + start] with
    [step = (stop - start) / (num - 1)] and the last sample set to [stop];
    for [num <= 1] the step is not used.  A negative [num] is refused. *)
Definition linspace (start stop : Q) (num : Z) : result (list Q) :=
  if (num <? 0)%Z then Raise ValueError
  else
    let n := Z.to_nat num in
    if (1 <? num)%Z then
      let step := (stop - start) / inject_Z (num - 1) in
      let y := map (fun k => inject_Z (Z.of_nat k) * step + start) (arange n) in
      Ok (removelast y ++ [stop])
    else
      Ok (map (fun k => inject_Z (Z.of_nat k) + start) (arange n)).

(** Elementwise binary operation on two arrays of one length. *)
Definition zip_with {A B C : Type} (f : A -> B -> C) (a : list A) (b : list B)
  : list C :=
  map (fun p => f (fst p) (snd p)) (combine a b).

(** [np.searchsorted(a, v)] with the default [side='left']: the binary
    search NumPy runs.  The loop halves [hi - lo], so [length a] rounds of
    fuel are never exhausted (lemma [binsearch_left_fuel]). *)
Fixpoint binsearch_left (fuel : nat) (a : list Q) (v : npfloat) (lo hi : nat)
  : nat :=
  match fuel with
  | O => lo
  | S fuel' =>
      if (lo <? hi)%nat then
        let mid := (lo + (hi - lo) / 2)%nat in
        if np_less (nth mid a 0) v
        then binsearch_left fuel' a v (S mid) hi
        else binsearch_left fuel' a v lo mid
      else lo
  end.

Definition searchsorted (a : list Q) (v : npfloat) : nat :=
  binsearch_left (length a) a v 0 (length a).

(** [np.searchsorted(a, keys)] for an array of keys: NumPy keeps the bounds
    of the previous search.  When the key is above the previous key the
    lower bound stays and the upper bound is reset; otherwise the lower
    bound is reset and the upper bound moves one up.  [min_idx] and
    [max_idx] are the bounds the previous search ended with. *)
Fixpoint searchsorted_from (a : list Q) (min_idx max_idx : nat)
  (last_key : npfloat) (keys : list npfloat) : list nat :=
  match keys with
  | [] => []
  | key :: rest =>
      let lo := if npfloat_less last_key key then min_idx else 0%nat in
      let hi := if npfloat_less last_key key then length a
                else if (max_idx <? length a)%nat then S max_idx
                     else length a in
      let r := binsearch_left (length a) a key lo hi in
      r :: searchsorted_from a r r key rest
  end.

Definition searchsorted_keys (a : list Q) (keys : list npfloat) : list nat :=
  match keys with
  | [] => []
  | key :: _ => searchsorted_from a 0 (length a) key keys
  end.

(** [a.argmin()]: index of the first occurrence of the minimum; an empty
    array is an error. *)
Fixpoint argmin_from (best_i : nat) (best : Q) (i : nat) (l : list Q) : nat :=
  match l with
  | [] => best_i
  | x :: rest =>
      if Qlt_le_dec x best
      then argmin_from i x (S i) rest
      else argmin_from best_i best (S i) rest
  end.

Definition argmin (l : list Q) : result nat :=
  match l with
  | [] => Raise ValueError
  | x :: rest => Ok (argmin_from 0 x 1 rest)
  end.

(** *** Arrays from [np.empty]

    [np.empty] returns an array whose cells hold whatever the memory held.
    A cell is [None] until it is assigned; reading a [None] cell is the
    outcome [UninitializedRead]. *)
Definition ndarray (A : Type) : Type := list (option A).

Definition np_empty {A : Type} (n : nat) : ndarray A := repeat None n.

Definition overwrite {A : Type} (arr : ndarray A) (start : nat) (vals : list A)
  : ndarray A :=
  firstn start arr ++ map Some vals ++ skipn (start + length vals) arr.

(** The number of cells [arr[start:stop]] selects. *)
Definition slice_len {A : Type} (arr : ndarray A) (start stop : nat) : nat :=
  (Nat.min stop (length arr) - Nat.min start (length arr))%nat.

(** [arr[start:stop] = vals] for an array [vals]: the shapes must agree,
    except that one value is broadcast over the slice. *)
Definition set_slice {A : Type} (arr : ndarray A) (start stop : nat)
  (vals : list A) : result (ndarray A) :=
  let n := slice_len arr start stop in
  if (length vals =? n)%nat then Ok (overwrite arr start vals)
  else match vals with
       | [v] => Ok (overwrite arr start (repeat v n))
       | _ => Raise ValueError
       end.

(** [arr[start:stop] = v] for a scalar [v]. *)
Definition fill_slice {A : Type} (arr : ndarray A) (start stop : nat) (v : A)
  : ndarray A :=
  overwrite arr start (repeat v (slice_len arr start stop)).

(** Reading a whole array. *)
Fixpoint read_all {A : Type} (arr : ndarray A) : result (list A) :=
  match arr with
  | [] => Ok []
  | None :: _ => Raise UninitializedRead
  | Some x :: rest => xs <- read_all rest ;; Ok (x :: xs)
  end.

(** Two-dimensional arrays, row-major as a list of rows. *)
Definition np_empty2 {A : Type} (rows cols : nat) : list (ndarray A) :=
  repeat (np_empty cols) rows.

Definition set_cell {A : Type} (r : ndarray A) (j : nat) (v : A) : ndarray A :=
  if (j <? length r)%nat then firstn j r ++ Some v :: skipn (S j) r else r.

(** [M[:, j] = vals] and [M[:, j] = v]; [j] is a valid column. *)
Definition set_column {A : Type} (M : list (ndarray A)) (j : nat)
  (vals : list A) : result (list (ndarray A)) :=
  if (length vals =? length M)%nat
  then Ok (zip_with (fun r v => set_cell r j v) M vals)
  else match vals with
       | [v] => Ok (map (fun r => set_cell r j v) M)
       | _ => Raise ValueError
       end.

Definition fill_column {A : Type} (M : list (ndarray A)) (j : nat) (v : A)
  : list (ndarray A) :=
  map (fun r => set_cell r j v) M.

(** [M.shape = (n,)]: the cells in row-major order; the size must be [n]. *)
Definition reshape_flat {A : Type} (M : list (ndarray A)) (n : nat)
  : result (ndarray A) :=
  if (length (concat M) =? n)%nat then Ok (concat M) else Raise ValueError.

Fixpoint mapM {A B : Type} (f : A -> result B) (l : list A) : result (list B) :=
  match l with
  | [] => Ok []
  | x :: rest => y <- f x ;; ys <- mapM f rest ;; Ok (y :: ys)
  end.

(** ** SciPy's COO matrices *)

Definition entry : Type := (nat * nat * Q)%type.

Definition entry_row (e : entry) : nat := fst (fst e).
Definition entry_col (e : entry) : nat := snd (fst e).
Definition entry_val (e : entry) : Q := snd e.

Record coo : Type := mk_coo {
  coo_rows : nat;
  coo_cols : nat;
  coo_entries : list entry
}.

(** [sparse.coo_matrix((data, (row, col)), shape=(m, n))]: the three arrays
    are read, must have one length, and every index must lie inside the
    shape; duplicates are kept. *)
Definition coo_matrix (data : ndarray Q) (row col : ndarray nat) (m n : nat)
  : result coo :=
  d <- read_all data ;;
  r <- read_all row ;;
  c <- read_all col ;;
  if negb ((length r =? length d)%nat && (length c =? length d)%nat)
  then Raise ValueError
  else if forallb (fun i => (i <? m)%nat) r && forallb (fun j => (j <? n)%nat) c
       then Ok (mk_coo m n (combine (combine r c) d))
       else Raise ValueError.

(** [Q.sum_duplicates()]: entries with one (row, column) key are replaced by
    one entry holding their sum.  SciPy also sorts the entries; here they
    stay in the order their keys first occur, which no reader of the matrix
    depends on. *)
Fixpoint add_entry (e : entry) (acc : list entry) : list entry :=
  match acc with
  | [] => [e]
  | e' :: rest =>
      if (entry_row e =? entry_row e')%nat && (entry_col e =? entry_col e')%nat
      then (entry_row e', entry_col e', entry_val e' + entry_val e) :: rest
      else e' :: add_entry e rest
  end.

Definition merge_entries (es : list entry) : list entry :=
  fold_left (fun acc e => add_entry e acc) es [].

Definition sum_duplicates (M : coo) : coo :=
  mk_coo (coo_rows M) (coo_cols M) (merge_entries (coo_entries M)).

Definition in_row (r : nat) (e : entry) : bool := (entry_row e =? r)%nat.

Definition coo_row (M : coo) (r : nat) : list entry :=
  filter (in_row r) (coo_entries M).

(** ** Nearest grid index (notebook cell 4) *)

Definition mid_points (grid : list Q) : list Q :=
  zip_with (fun a b => (a + b) / 2) (removelast grid) (tl grid).

Definition nearest_idx (grid : list Q) (v : npfloat) : nat :=
  searchsorted (mid_points grid) v.

(** The same function called with an array of values, as [tiger_mdp] calls
    it. *)
Definition nearest_idx_keys (grid : list Q) (v : list npfloat) : list nat :=
  searchsorted_keys (mid_points grid) v.

(** ** The belief grid (notebook cell 6) *)

Definition belief_grid (grid_size : Z) : result (list Q) :=
  linspace 0 1 grid_size.

(** ** Assembling the MDP (notebook cell 5) *)

Record triplets : Type := mk_triplets {
  data : ndarray Q;
  row : ndarray nat;
  col : ndarray nat
}.

(** What quantecon's [DiscreteDP] is built from. *)
Record DiscreteDP : Type := mk_DiscreteDP {
  ddp_R : list Q;
  ddp_Q : coo;
  ddp_beta : Q;
  ddp_s_indices : list nat;
  ddp_a_indices : list nat
}.

(** The call [DiscreteDP(R, Q, beta, s_indices, a_indices)].  The
    constructor belongs to quantecon, not to the notebook.  Of its checks
    the one on the discount factor is modelled: a [beta] outside [0,1] is
    refused with ValueError. *)
Definition DiscreteDP_init (R : list Q) (Qm : coo) (beta : Q)
  (s_indices a_indices : list nat) : result DiscreteDP :=
  if Qle_bool 0 beta && Qle_bool beta 1
  then Ok (mk_DiscreteDP R Qm beta s_indices a_indices)
  else Raise ValueError.

Definition num_actions : nat := 3.

Definition reward : Q := 10.
Definition penalty : Q := -100.
Definition cost : Q := -1.

(** Lines 126-134: the reward array. *)
Definition tiger_R (belief_grid : list Q) : result (ndarray Q) :=
  let grid_size := length belief_grid in
  let L := (grid_size * num_actions)%nat in
  let R := np_empty2 grid_size num_actions in
  let R := fill_column R 0 cost in
  R <- set_column R 1
         (map (fun b => penalty * (1 - b) + reward * b) belief_grid) ;;
  R <- set_column R 2
         (map (fun b => reward * (1 - b) + penalty * b) belief_grid) ;;
  reshape_flat R L.

(** Lines 137-139: the three triplet arrays. *)
Definition tiger_alloc (grid_size : nat) : triplets :=
  mk_triplets (np_empty (grid_size * (num_actions + 1)))
              (np_empty (grid_size * (num_actions + 1)))
              (np_empty (grid_size * (num_actions + 1))).

(** Lines 141-152: the Listen branch, [a = 0]. *)
Definition tiger_listen (belief_grid : list Q) (t : triplets) : result triplets :=
  let grid_size := length belief_grid in
  let L := (grid_size * num_actions)%nat in
  let a := 0%nat in
  let p := noise_prob_default in
  d <- set_slice (data t) (a * grid_size) ((a + 1) * grid_size)
         (map (fun b => prob_TL b p p) belief_grid) ;;
  r <- set_slice (row t) (a * grid_size) ((a + 1) * grid_size)
         (arange_step a L num_actions) ;;
  vl <- mapM (fun b => bayes_update_TL NdArray b p p) belief_grid ;;
  c <- set_slice (col t) (a * grid_size) ((a + 1) * grid_size)
         (nearest_idx_keys belief_grid vl) ;;
  d <- set_slice d ((a + 1) * grid_size) ((a + 2) * grid_size)
         (map (fun b => prob_TR b p p) belief_grid) ;;
  r <- set_slice r ((a + 1) * grid_size) ((a + 2) * grid_size)
         (arange_step a L num_actions) ;;
  vr <- mapM (fun b => bayes_update_TR NdArray b p p) belief_grid ;;
  c <- set_slice c ((a + 1) * grid_size) ((a + 2) * grid_size)
         (nearest_idx_keys belief_grid vr) ;;
  Ok (mk_triplets d r c).

(** Lines 157-159: the body of the loop over the two door actions. *)
Definition tiger_open (grid_size prob_half_idx : nat) (t : triplets) (a : nat)
  : result triplets :=
  let L := (grid_size * num_actions)%nat in
  let d := fill_slice (data t) ((a + 1) * grid_size) ((a + 2) * grid_size) 1 in
  r <- set_slice (row t) ((a + 1) * grid_size) ((a + 2) * grid_size)
         (arange_step a L num_actions) ;;
  let c := fill_slice (col t) ((a + 1) * grid_size) ((a + 2) * grid_size)
             prob_half_idx in
  Ok (mk_triplets d r c).

Fixpoint for_each {S A : Type} (body : S -> A -> result S) (l : list A) (s : S)
  : result S :=
  match l with
  | [] => Ok s
  | x :: rest => s' <- body s x ;; for_each body rest s'
  end.

(** Line 155. *)
Definition prob_half_idx (belief_grid : list Q) : result nat :=
  argmin (map (fun b => Qabs (b - 1 / 2)) belief_grid).

(** Lines 137-159: the triplet arrays when the matrix is built. *)
Definition tiger_triplets (belief_grid : list Q) : result triplets :=
  let grid_size := length belief_grid in
  t <- tiger_listen belief_grid (tiger_alloc grid_size) ;;
  h <- prob_half_idx belief_grid ;;
  for_each (tiger_open grid_size h) [1%nat; 2%nat] t.

Definition tiger_mdp (belief_grid : list Q) (beta : Q) : result DiscreteDP :=
  let grid_size := length belief_grid in
  let L := (grid_size * num_actions)%nat in
  let s_indices := np_repeat (arange grid_size) num_actions in
  let a_indices := np_tile (arange num_actions) grid_size in
  R <- tiger_R belief_grid ;;
  t <- tiger_triplets belief_grid ;;
  Q <- coo_matrix (data t) (row t) (col t) L grid_size ;;
  let Q := sum_duplicates Q in
  R <- read_all R ;;
  DiscreteDP_init R Q beta s_indices a_indices.

(** ** Closed forms of what [tiger_mdp] writes

    The four blocks of the triplet arrays, in the order they are written,
    and the reward vector; the theorems below show that the code produces
    exactly these. *)

Definition listen_update_TL (b : Q) : npfloat :=
  np_true_divide (noise_prob_default * b)
                 (prob_TL b noise_prob_default noise_prob_default).

Definition listen_update_TR (b : Q) : npfloat :=
  np_true_divide ((1 - noise_prob_default) * b)
                 (prob_TR b noise_prob_default noise_prob_default).

Definition sa_rows (a grid_size : nat) : list nat :=
  map (fun k => (a + k * num_actions)%nat) (seq 0 grid_size).

Definition block (rows cols : list nat) (vals : list Q) : list entry :=
  combine (combine rows cols) vals.

Definition listen_TL_block (grid : list Q) : list entry :=
  block (sa_rows 0 (length grid))
        (nearest_idx_keys grid (map listen_update_TL grid))
        (map (fun b => prob_TL b noise_prob_default noise_prob_default) grid).

Definition listen_TR_block (grid : list Q) : list entry :=
  block (sa_rows 0 (length grid))
        (nearest_idx_keys grid (map listen_update_TR grid))
        (map (fun b => prob_TR b noise_prob_default noise_prob_default) grid).

Definition open_block (a grid_size h : nat) : list entry :=
  block (sa_rows a grid_size) (repeat h grid_size) (repeat 1 grid_size).

Definition tiger_entries (grid : list Q) (h : nat) : list entry :=
  listen_TL_block grid ++ listen_TR_block grid
  ++ open_block 1 (length grid) h ++ open_block 2 (length grid) h.

(** Triplet arrays whose first cells hold [d], [r] and [c] and whose last
    [k] cells were never assigned. *)
Definition written (d : list Q) (r c : list nat) (k : nat) : triplets :=
  mk_triplets (map Some d ++ repeat None k)
              (map Some r ++ repeat None k)
              (map Some c ++ repeat None k).

Definition listen_data (grid : list Q) : list Q :=
  map (fun b => prob_TL b noise_prob_default noise_prob_default) grid
  ++ map (fun b => prob_TR b noise_prob_default noise_prob_default) grid.

Definition listen_rows (grid_size : nat) : list nat :=
  sa_rows 0 grid_size ++ sa_rows 0 grid_size.

Definition listen_cols (grid : list Q) : list nat :=
  nearest_idx_keys grid (map listen_update_TL grid)
  ++ nearest_idx_keys grid (map listen_update_TR grid).

Definition tiger_data (grid : list Q) : list Q :=
  (listen_data grid ++ repeat 1 (length grid)) ++ repeat 1 (length grid).

Definition tiger_rows (grid_size : nat) : list nat :=
  (listen_rows grid_size ++ sa_rows 1 grid_size) ++ sa_rows 2 grid_size.

Definition tiger_cols (grid : list Q) (h : nat) : list nat :=
  (listen_cols grid ++ repeat h (length grid)) ++ repeat h (length grid).

Definition reward_row (b : Q) : list Q :=
  [cost; penalty * (1 - b) + reward * b; reward * (1 - b) + penalty * b].

(** ** Predicates of the statements *)



(** State-action pair [(g, a)] as a row index. *)
Definition sa_index (g a : nat) : nat := (g * num_actions + a)%nat.

Definition initialized {A : Type} (arr : ndarray A) (i : nat) : Prop :=
  exists x, nth_error arr i = Some (Some x).

Definition uninitialized {A : Type} (arr : ndarray A) (i : nat) : Prop :=
  nth_error arr i = Some None.

(** An array of [len] cells of which exactly the first [n] are assigned. *)
Definition filled_to {A : Type} (arr : ndarray A) (len n : nat) : Prop :=
  length arr = len
  /\ forall i, (i < len)%nat ->
       if (i <? n)%nat then initialized arr i else uninitialized arr i.

Definition triplets_filled_to (t : triplets) (len n : nat) : Prop :=
  filled_to (data t) len n /\ filled_to (row t) len n
  /\ filled_to (col t) len n.

Definition same_prefix (t t' : triplets) (n : nat) : Prop :=
  firstn n (data t') = firstn n (data t)
  /\ firstn n (row t') = firstn n (row t)
  /\ firstn n (col t') = firstn n (col t).

(** * The program on binary64 numbers

    The same functions with every number a float64 and every operation the
    IEEE 754 one (round to nearest, ties to even), as NumPy computes them:
    rounding, overflow, signed zeros, infinities and NaN are all inside this
    model.  Indices, array shapes and exceptions are as before. *)

Module F64.

Local Open Scope float_scope.

(** A Python integer as a float, correctly rounded. *)
Definition of_Z (z : Z) : float :=
  SF2Prim (binary_normalize prec emax z 0 false).

(** The rational a finite float denotes. *)
Definition F2Q (x : float) : option Q :=
  match Prim2SF x with
  | S754_zero _ => Some 0%Q
  | S754_finite s m e =>
      Some ((if s then inject_Z (Zneg m) else inject_Z (Zpos m)) * Qpower 2 e)%Q
  | S754_infinity _ => None
  | S754_nan => None
  end.

(** [x / y]: a plain Python float refuses a zero divisor of either sign;
    on NumPy arrays the division is the IEEE one and returns an infinity or
    NaN. *)
Definition true_divide (k : operand) (x y : float) : result float :=
  match k with
  | PyNumber => if y =? 0 then Raise ZeroDivisionError else Ok (x / y)
  | NdArray => Ok (x / y)
  end.

(** ** Observation model and Bayes update (notebook cell 3) *)

(** The literal [0.15]. *)
Definition noise_prob_default : float := 0x1.3333333333333p-3.

Definition prob_TL (belief noise_prob_L noise_prob_R : float) : float :=
  (1 - noise_prob_L) * (1 - belief) + noise_prob_R * belief.

Definition prob_TR (belief noise_prob_L noise_prob_R : float) : float :=
  noise_prob_L * (1 - belief) + (1 - noise_prob_R) * belief.

Definition bayes_update_TL (k : operand)
  (belief noise_prob_L noise_prob_R : float) : result float :=
  true_divide k (noise_prob_R * belief)
                (prob_TL belief noise_prob_L noise_prob_R).

Definition bayes_update_TR (k : operand)
  (belief noise_prob_L noise_prob_R : float) : result float :=
  true_divide k ((1 - noise_prob_R) * belief)
                (prob_TR belief noise_prob_L noise_prob_R).

(** ** NumPy primitives *)

(** [np.arange(0, num)] as floats. *)
Fixpoint arange_from (start : Z) (n : nat) : list float :=
  match n with
  | O => []
  | S n' => of_Z start :: arange_from (start + 1) n'
  end.

(** [np.linspace(start, stop, num)]: the samples are the rounded products
    [k * step] plus [start], with [step] the rounded quotient
    [(stop - start) / (num - 1)]; a step that underflows to zero divides
    first.  The last sample is then overwritten by [stop].  For [num <= 1]
    the step is not used. *)
Definition linspace (start stop : float) (num : Z) : result (list float) :=
  if (num <? 0)%Z then Raise ValueError
  else
    let div := (num - 1)%Z in
    let delta := stop - start in
    let y := arange_from 0 (Z.to_nat num) in
    let y :=
      if (0 <? div)%Z then
        let step := delta / of_Z div in
        if step =? 0
        then map (fun v => v / of_Z div * delta) y
        else map (fun v => v * step) y
      else map (fun v => v * delta) y in
    let y := map (fun v => v + start) y in
    Ok (if (1 <? num)%Z then removelast y ++ [stop] else y).

(** The order [np.searchsorted] compares floats with: [<], NaN last. *)
Definition np_less (a b : float) : bool :=
  (a <? b) || (is_nan b && negb (is_nan a)).

Fixpoint binsearch_left (fuel : nat) (a : list float) (v : float) (lo hi : nat)
  : nat :=
  match fuel with
  | O => lo
  | S fuel' =>
      if (lo <? hi)%nat then
        let mid := (lo + (hi - lo) / 2)%nat in
        if np_less (nth mid a 0) v
        then binsearch_left fuel' a v (S mid) hi
        else binsearch_left fuel' a v lo mid
      else lo
  end.

(** [np.searchsorted(a, v)] for one value [v]. *)
Definition searchsorted (a : list float) (v : float) : nat :=
  binsearch_left (length a) a v 0 (length a).

(** [np.searchsorted(a, keys)] for an array of keys, with the bounds of the
    previous search kept as NumPy keeps them. *)
Fixpoint searchsorted_from (a : list float) (min_idx max_idx : nat)
  (last_key : float) (keys : list float) : list nat :=
  match keys with
  | [] => []
  | key :: rest =>
      let lo := if np_less last_key key then min_idx else 0%nat in
      let hi := if np_less last_key key then length a
                else if (max_idx <? length a)%nat then S max_idx
                     else length a in
      let r := binsearch_left (length a) a key lo hi in
      r :: searchsorted_from a r r key rest
  end.

Definition searchsorted_keys (a : list float) (keys : list float) : list nat :=
  match keys with
  | [] => []
  | key :: _ => searchsorted_from a 0 (length a) key keys
  end.

(** [a.argmin()]: the index of the first NaN if there is one, otherwise of
    the first occurrence of the minimum; an empty array is an error.  The
    test is NumPy's [!(x >= best)]. *)
Fixpoint argmin_from (best_i : nat) (best : float) (i : nat) (l : list float)
  : nat :=
  match l with
  | [] => best_i
  | x :: rest =>
      if negb (best <=? x)
      then if is_nan x then i else argmin_from i x (S i) rest
      else argmin_from best_i best (S i) rest
  end.

Definition argmin (l : list float) : result nat :=
  match l with
  | [] => Raise ValueError
  | x :: rest => Ok (if is_nan x then 0%nat else argmin_from 0 x 1 rest)
  end.

(** ** SciPy's COO matrices *)

Definition entry : Type := (nat * nat * float)%type.

Definition entry_row (e : entry) : nat := fst (fst e).
Definition entry_col (e : entry) : nat := snd (fst e).
Definition entry_val (e : entry) : float := snd e.

Record coo : Type := mk_coo {
  coo_rows : nat;
  coo_cols : nat;
  coo_entries : list entry
}.

Definition coo_matrix (data : ndarray float) (row col : ndarray nat) (m n : nat)
  : result coo :=
  d <- read_all data ;;
  r <- read_all row ;;
  c <- read_all col ;;
  if negb ((length r =? length d)%nat && (length c =? length d)%nat)
  then Raise ValueError
  else if forallb (fun i => (i <? m)%nat) r && forallb (fun j => (j <? n)%nat) c
       then Ok (mk_coo m n (combine (combine r c) d))
       else Raise ValueError.

(** [Q.sum_duplicates()].  The triplets are sorted by row, then column, with
    a stable sort ([np.lexsort]); each run of one key then becomes one
    entry ([np.add.reduceat]): a run of one keeps its value, a longer run
    holds its first value plus the sum of the others, these added left to
    right from [-0.0]. *)
Definition key_lt (e e' : entry) : bool :=
  (entry_row e <? entry_row e')%nat
  || ((entry_row e =? entry_row e')%nat && (entry_col e <? entry_col e')%nat).

Definition same_key (e e' : entry) : bool :=
  (entry_row e =? entry_row e')%nat && (entry_col e =? entry_col e')%nat.

Fixpoint insert_entry (e : entry) (l : list entry) : list entry :=
  match l with
  | [] => [e]
  | x :: rest =>
      if key_lt x e then x :: insert_entry e rest else e :: x :: rest
  end.

Definition lexsort (es : list entry) : list entry :=
  fold_right insert_entry [] es.

Definition run_entry (first : entry) (others : list float) : entry :=
  (entry_row first, entry_col first,
   match others with
   | [] => entry_val first
   | _ => entry_val first + fold_left add others (-0)
   end).

Fixpoint reduce_runs (first : entry) (others : list float) (l : list entry)
  : list entry :=
  match l with
  | [] => [run_entry first others]
  | x :: rest =>
      if same_key first x
      then reduce_runs first (others ++ [entry_val x]) rest
      else run_entry first others :: reduce_runs x [] rest
  end.

Definition sum_runs (l : list entry) : list entry :=
  match l with
  | [] => []
  | e :: rest => reduce_runs e [] rest
  end.

Definition sum_duplicates (M : coo) : coo :=
  mk_coo (coo_rows M) (coo_cols M) (sum_runs (lexsort (coo_entries M))).

Definition in_row (r : nat) (e : entry) : bool := (entry_row e =? r)%nat.

(** The stored entries of row [r], in storage order. *)
Definition coo_row (M : coo) (r : nat) : list entry :=
  filter (in_row r) (coo_entries M).


Definition keys (es : list entry) : list (nat * nat) := map fst es.

(** ** Nearest grid index (notebook cell 4) *)

Definition mid_points (grid : list float) : list float :=
  zip_with (fun a b => (a + b) / 2) (removelast grid) (tl grid).

Definition nearest_idx (grid : list float) (v : float) : nat :=
  searchsorted (mid_points grid) v.

Definition nearest_idx_keys (grid : list float) (v : list float) : list nat :=
  searchsorted_keys (mid_points grid) v.

(** ** The belief grid (notebook cell 6) *)

Definition belief_grid (grid_size : Z) : result (list float) :=
  linspace 0 1 grid_size.

(** ** Assembling the MDP (notebook cell 5) *)

Record triplets : Type := mk_triplets {
  data : ndarray float;
  row : ndarray nat;
  col : ndarray nat
}.

Record DiscreteDP : Type := mk_DiscreteDP {
  ddp_R : list float;
  ddp_Q : coo;
  ddp_beta : float;
  ddp_s_indices : list nat;
  ddp_a_indices : list nat
}.

(** The call [DiscreteDP(R, Q, beta, s_indices, a_indices)]: a [beta] that
    is not inside [0,1], NaN included, is refused with ValueError. *)
Definition DiscreteDP_init (R : list float) (Qm : coo) (beta : float)
  (s_indices a_indices : list nat) : result DiscreteDP :=
  if (0 <=? beta) && (beta <=? 1)
  then Ok (mk_DiscreteDP R Qm beta s_indices a_indices)
  else Raise ValueError.

Definition reward : float := 10.
Definition penalty : float := -100.
Definition cost : float := -1.

(** Lines 126-134: the reward array. *)
Definition tiger_R (belief_grid : list float) : result (ndarray float) :=
  let grid_size := length belief_grid in
  let L := (grid_size * num_actions)%nat in
  let R := np_empty2 grid_size num_actions in
  let R := fill_column R 0 cost in
  R <- set_column R 1
         (map (fun b => penalty * (1 - b) + reward * b) belief_grid) ;;
  R <- set_column R 2
         (map (fun b => reward * (1 - b) + penalty * b) belief_grid) ;;
  reshape_flat R L.

(** Lines 137-139: the three triplet arrays. *)
Definition tiger_alloc (grid_size : nat) : triplets :=
  mk_triplets (np_empty (grid_size * (num_actions + 1)))
              (np_empty (grid_size * (num_actions + 1)))
              (np_empty (grid_size * (num_actions + 1))).

(** Lines 141-152: the Listen branch, [a = 0]. *)
Definition tiger_listen (belief_grid : list float) (t : triplets)
  : result triplets :=
  let grid_size := length belief_grid in
  let L := (grid_size * num_actions)%nat in
  let a := 0%nat in
  let p := noise_prob_default in
  d <- set_slice (data t) (a * grid_size) ((a + 1) * grid_size)
         (map (fun b => prob_TL b p p) belief_grid) ;;
  r <- set_slice (row t) (a * grid_size) ((a + 1) * grid_size)
         (arange_step a L num_actions) ;;
  vl <- mapM (fun b => bayes_update_TL NdArray b p p) belief_grid ;;
  c <- set_slice (col t) (a * grid_size) ((a + 1) * grid_size)
         (nearest_idx_keys belief_grid vl) ;;
  d <- set_slice d ((a + 1) * grid_size) ((a + 2) * grid_size)
         (map (fun b => prob_TR b p p) belief_grid) ;;
  r <- set_slice r ((a + 1) * grid_size) ((a + 2) * grid_size)
         (arange_step a L num_actions) ;;
  vr <- mapM (fun b => bayes_update_TR NdArray b p p) belief_grid ;;
  c <- set_slice c ((a + 1) * grid_size) ((a + 2) * grid_size)
         (nearest_idx_keys belief_grid vr) ;;
  Ok (mk_triplets d r c).

(** Lines 157-159: the body of the loop over the two door actions. *)
Definition tiger_open (grid_size prob_half_idx : nat) (t : triplets) (a : nat)
  : result triplets :=
  let L := (grid_size * num_actions)%nat in
  let d := fill_slice (data t) ((a + 1) * grid_size) ((a + 2) * grid_size) 1 in
  r <- set_slice (row t) ((a + 1) * grid_size) ((a + 2) * grid_size)
         (arange_step a L num_actions) ;;
  let c := fill_slice (col t) ((a + 1) * grid_size) ((a + 2) * grid_size)
             prob_half_idx in
  Ok (mk_triplets d r c).

(** Line 155: the computed distances to [1/2 = 0.5] and their argmin. *)
Definition half_distance (b : float) : float := abs (b - 0x1p-1).

Definition prob_half_idx (belief_grid : list float) : result nat :=
  argmin (map half_distance belief_grid).

Definition tiger_triplets (belief_grid : list float) : result triplets :=
  let grid_size := length belief_grid in
  t <- tiger_listen belief_grid (tiger_alloc grid_size) ;;
  h <- prob_half_idx belief_grid ;;
  for_each (tiger_open grid_size h) [1%nat; 2%nat] t.

Definition tiger_mdp (belief_grid : list float) (beta : float)
  : result DiscreteDP :=
  let grid_size := length belief_grid in
  let L := (grid_size * num_actions)%nat in
  let s_indices := np_repeat (arange grid_size) num_actions in
  let a_indices := np_tile (arange num_actions) grid_size in
  R <- tiger_R belief_grid ;;
  t <- tiger_triplets belief_grid ;;
  Q <- coo_matrix (data t) (row t) (col t) L grid_size ;;
  let Q := sum_duplicates Q in
  R <- read_all R ;;
  DiscreteDP_init R Q beta s_indices a_indices.

(** ** Closed forms of what [tiger_mdp] writes *)

Definition listen_update_TL (b : float) : float :=
  noise_prob_default * b / prob_TL b noise_prob_default noise_prob_default.

Definition listen_update_TR (b : float) : float :=
  (1 - noise_prob_default) * b
  / prob_TR b noise_prob_default noise_prob_default.

Definition block (rows cols : list nat) (vals : list float) : list entry :=
  combine (combine rows cols) vals.

Definition listen_TL_block (grid : list float) : list entry :=
  block (sa_rows 0 (length grid))
        (nearest_idx_keys grid (map listen_update_TL grid))
        (map (fun b => prob_TL b noise_prob_default noise_prob_default) grid).

Definition listen_TR_block (grid : list float) : list entry :=
  block (sa_rows 0 (length grid))
        (nearest_idx_keys grid (map listen_update_TR grid))
        (map (fun b => prob_TR b noise_prob_default noise_prob_default) grid).

Definition open_block (a grid_size h : nat) : list entry :=
  block (sa_rows a grid_size) (repeat h grid_size) (repeat 1 grid_size).

Definition tiger_entries (grid : list float) (h : nat) : list entry :=
  listen_TL_block grid ++ listen_TR_block grid
  ++ open_block 1 (length grid) h ++ open_block 2 (length grid) h.

Definition written (d : list float) (r c : list nat) (k : nat) : triplets :=
  mk_triplets (map Some d ++ repeat None k)
              (map Some r ++ repeat None k)
              (map Some c ++ repeat None k).

Definition listen_data (grid : list float) : list float :=
  map (fun b => prob_TL b noise_prob_default noise_prob_default) grid
  ++ map (fun b => prob_TR b noise_prob_default noise_prob_default) grid.

Definition listen_cols (grid : list float) : list nat :=
  nearest_idx_keys grid (map listen_update_TL grid)
  ++ nearest_idx_keys grid (map listen_update_TR grid).

Definition tiger_data (grid : list float) : list float :=
  (listen_data grid ++ repeat 1 (length grid)) ++ repeat 1 (length grid).

Definition tiger_cols (grid : list float) (h : nat) : list nat :=
  (listen_cols grid ++ repeat h (length grid)) ++ repeat h (length grid).

Definition reward_row (b : float) : list float :=
  [cost; penalty * (1 - b) + reward * b; reward * (1 - b) + penalty * b].

End F64.

(** ** The order of binary64 numbers

    [SFrank] sends every float that is not NaN to a triple of integers whose
    lexicographic order is the order of the floats. *)

Definition SFrank (f : spec_float) : option (Z * Z * Z) :=
  match f with
  | S754_nan => None
  | S754_infinity s => Some (if s then (-2, 0, 0) else (2, 0, 0))%Z
  | S754_zero _ => Some (0, 0, 0)%Z
  | S754_finite s m e =>
      Some (if s then (-1, - e, Zneg m) else (1, e, Zpos m))%Z
  end.

Definition lex_compare (a b : Z * Z * Z) : comparison :=
  match (fst (fst a) ?= fst (fst b))%Z with
  | Eq => match (snd (fst a) ?= snd (fst b))%Z with
          | Eq => (snd a ?= snd b)%Z
          | c => c
          end
  | c => c
  end.

Definition lex_lt (a b : Z * Z * Z) : Prop :=
  (fst (fst a) < fst (fst b))%Z
  \/ (fst (fst a) = fst (fst b)
      /\ ((snd (fst a) < snd (fst b))%Z
          \/ (snd (fst a) = snd (fst b) /\ (snd a < snd b)%Z))).

Definition rank (x : float) : option (Z * Z * Z) := SFrank (Prim2SF x).

(** [h] is where NumPy's argmin of the array [d] points: the first NaN if
    there is one, otherwise the first occurrence of the least value. *)
Definition first_min (d : list float) (h : nat) : Prop :=
  (h < length d)%nat
  /\ (forall j, (j < length d)%nat ->
        is_nan (nth h d 0%float) = true
        \/ (nth h d 0 <=? nth j d 0)%float = true)
  /\ (forall j, (j < h)%nat ->
        is_nan (nth j d 0%float) = false
        /\ (is_nan (nth h d 0%float) = true
            \/ (nth h d 0 <? nth j d 0)%float = true)).

(** Every computed midpoint lies strictly between its two grid values. *)
Fixpoint midpoints_inside (grid : list float) : bool :=
  match grid with
  | [] => true
  | a :: rest =>
      match rest with
      | [] => true
      | b :: _ =>
          ((a <? (a + b) / 2) && ((a + b) / 2 <? b))%float
          && midpoints_inside rest
      end
  end.

(** Triplets in the order [np.lexsort] leaves them, and merged triplets in
    strictly increasing key order. *)
Fixpoint key_sorted (l : list F64.entry) : Prop :=
  match l with
  | [] => True
  | x :: rest =>
      Forall (fun y => F64.key_lt y x = false) rest /\ key_sorted rest
  end.


(** The notebook's grid, [np.linspace(0, 1, 5001)]. *)
Definition notebook_grid : list float :=
  match F64.belief_grid 5001 with
  | Ok grid => grid
  | Raise _ => []
  end.

(** Strictly increasing in the order of floats. *)
Fixpoint increasing (l : list float) : bool :=
  match l with
  | [] => true
  | x :: rest =>
      match rest with
      | [] => true
      | y :: _ => (x <? y)%float && increasing rest
      end
  end.



Definition listen_sum (b : float) : float :=
  (F64.prob_TL b F64.noise_prob_default F64.noise_prob_default
   + F64.prob_TR b F64.noise_prob_default F64.noise_prob_default)%float.

(** * Properties *)

(** ** Observation model *)




(** ** Bayes update on a zero denominator *)


Lemma np_true_divide_zero_zero (x y : Q) :
  x == 0 -> y == 0 -> np_true_divide x y = NaN.
Proof.
  intros Hx Hy. unfold np_true_divide.
  apply Qeq_bool_iff in Hy. apply Qeq_bool_iff in Hx.
  now rewrite Hy, Hx.
Qed.





(** Inside the unit interval a zero denominator forces a zero numerator:
    the result on array elements is then NaN. *)
Lemma bayes_update_TL_unit_interval (b pL pR : Q) :
  0 <= b <= 1 -> 0 <= pL <= 1 -> 0 <= pR <= 1 ->
  prob_TL b pL pR == 0 -> bayes_update_TL NdArray b pL pR = Ok NaN.
Proof.
  unfold prob_TL, bayes_update_TL. simpl. intros Hb HL HR H.
  f_equal. apply np_true_divide_zero_zero; [|exact H].
  assert (0 <= (1 - pL) * (1 - b)) by (apply Qmult_le_0_compat; lra).
  assert (0 <= pR * b) by (apply Qmult_le_0_compat; lra).
  lra.
Qed.

Lemma bayes_update_TR_unit_interval (b pL pR : Q) :
  0 <= b <= 1 -> 0 <= pL <= 1 -> 0 <= pR <= 1 ->
  prob_TR b pL pR == 0 -> bayes_update_TR NdArray b pL pR = Ok NaN.
Proof.
  unfold prob_TR, bayes_update_TR. simpl. intros Hb HL HR H.
  f_equal. apply np_true_divide_zero_zero; [|exact H].
  assert (0 <= pL * (1 - b)) by (apply Qmult_le_0_compat; lra).
  assert (0 <= (1 - pR) * b) by (apply Qmult_le_0_compat; lra).
  lra.
Qed.

(** ** Binary search *)

Section Binsearch.

Variable a : list Q.
Variable v : npfloat.

Lemma half_below (lo hi : nat) :
  (lo < hi)%nat -> (lo <= lo + (hi - lo) / 2 < hi)%nat.
Proof.
  intro H. split; [lia|].
  assert ((hi - lo) / 2 < hi - lo)%nat by (apply Nat.div_lt; lia).
  lia.
Qed.

Lemma binsearch_left_S (fuel lo hi : nat) :
  binsearch_left (S fuel) a v lo hi =
  if (lo <? hi)%nat then
    if np_less (nth (lo + (hi - lo) / 2) a 0) v
    then binsearch_left fuel a v (S (lo + (hi - lo) / 2)) hi
    else binsearch_left fuel a v lo (lo + (hi - lo) / 2)
  else lo.
Proof. reflexivity. Qed.

(** The result stays between the bounds, whatever the array holds. *)
Lemma binsearch_left_bounds (fuel lo hi : nat) :
  (lo <= hi)%nat ->
  (lo <= binsearch_left fuel a v lo hi <= hi)%nat.
Proof.
  revert lo hi. induction fuel as [|fuel IH]; intros lo hi Hle.
  - simpl. lia.
  - rewrite binsearch_left_S.
    destruct (Nat.ltb_spec lo hi) as [Hlt|Hge]; [|lia].
    pose proof (half_below lo hi Hlt) as Hm.
    destruct (np_less _ v).
    + specialize (IH (S (lo + (hi - lo) / 2)) hi). lia.
    + specialize (IH lo (lo + (hi - lo) / 2)%nat). lia.
Qed.

(** The loop ends before the fuel does: more fuel changes nothing. *)
Lemma binsearch_left_fuel (fuel fuel' lo hi : nat) :
  (hi - lo <= fuel)%nat -> (hi - lo <= fuel')%nat ->
  binsearch_left fuel a v lo hi = binsearch_left fuel' a v lo hi.
Proof.
  revert fuel' lo hi.
  induction fuel as [|fuel IH]; intros fuel' lo hi H H'.
  - destruct fuel'; [reflexivity|]. rewrite binsearch_left_S.
    destruct (Nat.ltb_spec lo hi); [lia|reflexivity].
  - destruct fuel' as [|fuel']; rewrite !binsearch_left_S.
    + destruct (Nat.ltb_spec lo hi); [lia|reflexivity].
    + destruct (Nat.ltb_spec lo hi) as [Hlt|Hge]; [|reflexivity].
      pose proof (half_below lo hi Hlt) as Hm.
      destruct (np_less _ v); apply IH; lia.
Qed.


Lemma searchsorted_bounds : (searchsorted a v <= length a)%nat.
Proof.
  unfold searchsorted.
  pose proof (binsearch_left_bounds (length a) 0 (length a)). lia.
Qed.


End Binsearch.

(** The search over an array of keys. *)
Lemma searchsorted_from_length (a : list Q) (mn mx : nat) (last : npfloat)
  (keys : list npfloat) :
  length (searchsorted_from a mn mx last keys) = length keys.
Proof.
  revert mn mx last. induction keys as [|k keys IH]; intros mn mx last.
  - reflexivity.
  - cbn [searchsorted_from length]. now rewrite IH.
Qed.

Lemma searchsorted_keys_length (a : list Q) (keys : list npfloat) :
  length (searchsorted_keys a keys) = length keys.
Proof.
  destruct keys as [|k keys]; [reflexivity|].
  unfold searchsorted_keys. apply searchsorted_from_length.
Qed.

Lemma searchsorted_from_bound (a : list Q) (mn mx : nat) (last : npfloat)
  (keys : list npfloat) :
  (mn <= length a)%nat ->
  Forall (fun r => (r <= length a)%nat) (searchsorted_from a mn mx last keys).
Proof.
  revert mn mx last. induction keys as [|k keys IH]; intros mn mx last Hmn.
  - constructor.
  - cbn [searchsorted_from].
    set (lo := if npfloat_less last k then mn else 0%nat).
    set (hi := if npfloat_less last k then length a
               else if (mx <? length a)%nat then S mx else length a).
    assert (Hlo : (lo <= hi)%nat /\ (hi <= length a)%nat).
    { unfold lo, hi. destruct (npfloat_less last k); [lia|].
      destruct (Nat.ltb_spec mx (length a)); lia. }
    pose proof (binsearch_left_bounds a k (length a) lo hi (proj1 Hlo)) as Hb.
    constructor; [lia|]. apply IH. lia.
Qed.

Lemma searchsorted_keys_bound (a : list Q) (keys : list npfloat) :
  Forall (fun r => (r <= length a)%nat) (searchsorted_keys a keys).
Proof.
  destruct keys as [|k keys]; [constructor|].
  unfold searchsorted_keys. apply searchsorted_from_bound. lia.
Qed.



(** ** Grids and their midpoints *)

Lemma mid_points_cons (x y : Q) (rest : list Q) :
  mid_points (x :: y :: rest) = (x + y) / 2 :: mid_points (y :: rest).
Proof. reflexivity. Qed.

Lemma mid_points_length (grid : list Q) :
  length (mid_points grid) = (length grid - 1)%nat.
Proof.
  induction grid as [|x [|y rest] IH]; try reflexivity.
  rewrite mid_points_cons. simpl length in *. lia.
Qed.

Lemma nearest_idx_keys_length (grid : list Q) (v : list npfloat) :
  length (nearest_idx_keys grid v) = length v.
Proof. apply searchsorted_keys_length. Qed.







(** ** Nearest grid index *)




(** ** The belief grid *)


Lemma linspace_unit (G : Z) :
  (2 <= G)%Z ->
  linspace 0 1 G =
  Ok (map (fun k => inject_Z (Z.of_nat k) * ((1 - 0) / inject_Z (G - 1)) + 0)
          (seq 0 (Z.to_nat G - 1))
      ++ [1]).
Proof.
  intro HG. unfold linspace, arange.
  destruct (Z.ltb_spec G 0) as [H|_]; [lia|].
  destruct (Z.ltb_spec 1 G) as [_|H]; [|lia].
  replace (Z.to_nat G) with (S (Z.to_nat G - 1)) at 1 by lia.
  rewrite seq_S, map_app. simpl map at 2.
  rewrite removelast_last. reflexivity.
Qed.

(** ** Arrays from np.empty *)

Section Arrays.

Context {A : Type}.

Lemma skipn_repeat_none (n k : nat) :
  skipn n (repeat (@None A) k) = repeat None (k - n).
Proof.
  revert n. induction k as [|k IH]; intro n.
  - now destruct n.
  - destruct n as [|n]; [reflexivity|]. simpl. apply IH.
Qed.

(** Writing right behind the part written so far extends that part. *)
Lemma overwrite_extends (xs vals : list A) (k : nat) :
  overwrite (map Some xs ++ repeat None k) (length xs) vals
  = map Some (xs ++ vals) ++ repeat None (k - length vals).
Proof.
  unfold overwrite.
  rewrite firstn_app, length_map, Nat.sub_diag, firstn_O, app_nil_r.
  rewrite firstn_all2 by (rewrite length_map; lia).
  rewrite skipn_app, length_map.
  rewrite skipn_all2 by (rewrite length_map; lia).
  replace (length xs + length vals - length xs)%nat with (length vals) by lia.
  rewrite skipn_repeat_none, map_app, <- app_assoc. reflexivity.
Qed.

Lemma slice_len_extends (xs : list A) (k n : nat) :
  (n <= k)%nat ->
  slice_len (map Some xs ++ repeat None k) (length xs) (length xs + n) = n.
Proof.
  intro H. unfold slice_len.
  rewrite length_app, length_map, repeat_length. lia.
Qed.

Lemma set_slice_extends (xs vals : list A) (k start stop : nat) :
  start = length xs -> stop = (start + length vals)%nat ->
  (length vals <= k)%nat ->
  set_slice (map Some xs ++ repeat None k) start stop vals
  = Ok (map Some (xs ++ vals) ++ repeat None (k - length vals)).
Proof.
  intros -> -> H. unfold set_slice.
  rewrite slice_len_extends by exact H.
  rewrite Nat.eqb_refl. now rewrite overwrite_extends.
Qed.

Lemma fill_slice_extends (xs : list A) (v : A) (k n start stop : nat) :
  start = length xs -> stop = (start + n)%nat -> (n <= k)%nat ->
  fill_slice (map Some xs ++ repeat None k) start stop v
  = map Some (xs ++ repeat v n) ++ repeat None (k - n).
Proof.
  intros -> -> H. unfold fill_slice.
  rewrite slice_len_extends by exact H.
  rewrite overwrite_extends, repeat_length. reflexivity.
Qed.

Lemma read_all_Some (xs : list A) : read_all (map Some xs) = Ok xs.
Proof.
  induction xs as [|x xs IH]; [reflexivity|].
  simpl. now rewrite IH.
Qed.

Lemma nth_error_written (xs : list A) (k i : nat) :
  (i < length xs)%nat ->
  initialized (map Some xs ++ repeat None k) i.
Proof.
  intro H. unfold initialized.
  rewrite nth_error_app1 by (rewrite length_map; exact H).
  destruct (nth_error xs i) as [x|] eqn:E.
  - exists x. now rewrite nth_error_map, E.
  - apply nth_error_None in E. lia.
Qed.

Lemma nth_error_unwritten (xs : list A) (k i : nat) :
  (length xs <= i < length xs + k)%nat ->
  uninitialized (map Some xs ++ repeat None k) i.
Proof.
  intro H. unfold uninitialized.
  rewrite nth_error_app2 by (rewrite length_map; lia).
  rewrite length_map. apply nth_error_repeat. lia.
Qed.

End Arrays.

Lemma mapM_total {A B : Type} (f : A -> result B) (g : A -> B) (l : list A) :
  (forall x, f x = Ok (g x)) -> mapM f l = Ok (map g l).
Proof.
  intro H. induction l as [|x l IH]; [reflexivity|].
  simpl. now rewrite H, IH.
Qed.

Lemma arange_step_rows (a grid_size : nat) :
  (a < num_actions)%nat ->
  arange_step a (grid_size * num_actions) num_actions = sa_rows a grid_size.
Proof.
  intro Ha. unfold arange_step, sa_rows, num_actions in *.
  f_equal. f_equal.
  destruct grid_size as [|n].
  - apply Nat.div_small. lia.
  - symmetry. apply Nat.div_unique with (r := (2 - a)%nat); lia.
Qed.

Lemma sa_rows_length (a grid_size : nat) :
  length (sa_rows a grid_size) = grid_size.
Proof. unfold sa_rows. now rewrite length_map, length_seq. Qed.

(** ** The triplet arrays, stage by stage *)

Ltac slice_side :=
  rewrite ?length_app, ?nearest_idx_keys_length, ?length_map,
    ?sa_rows_length, ?repeat_length;
  unfold num_actions; simpl length; lia.

Lemma tiger_alloc_written (grid_size : nat) :
  tiger_alloc grid_size = written [] [] [] (grid_size * (num_actions + 1)).
Proof. reflexivity. Qed.

Lemma tiger_listen_written (grid : list Q) :
  tiger_listen grid (tiger_alloc (length grid))
  = Ok (written (listen_data grid) (listen_rows (length grid))
                (listen_cols grid) (2 * length grid)).
Proof.
  rewrite tiger_alloc_written. unfold tiger_listen, written.
  cbn [data row col].
  rewrite (arange_step_rows 0) by (unfold num_actions; lia).
  rewrite (mapM_total _ listen_update_TL) by reflexivity.
  rewrite (mapM_total _ listen_update_TR) by reflexivity.
  repeat (rewrite set_slice_extends by slice_side; cbn [bind]).
  unfold listen_data, listen_rows, listen_cols. cbn [app].
  rewrite !nearest_idx_keys_length, !length_map, !sa_rows_length.
  replace (length grid * (num_actions + 1) - length grid - length grid)%nat
    with (2 * length grid)%nat by (unfold num_actions; lia).
  reflexivity.
Qed.

Lemma tiger_open_written (grid_size h a k : nat) (d : list Q) (r c : list nat) :
  (a < num_actions)%nat ->
  length d = ((a + 1) * grid_size)%nat ->
  length r = ((a + 1) * grid_size)%nat ->
  length c = ((a + 1) * grid_size)%nat ->
  (grid_size <= k)%nat ->
  tiger_open grid_size h (written d r c k) a
  = Ok (written (d ++ repeat 1 grid_size) (r ++ sa_rows a grid_size)
                (c ++ repeat h grid_size) (k - grid_size)).
Proof.
  intros Ha Hd Hr Hc Hk. unfold tiger_open, written. cbn [data row col].
  rewrite (arange_step_rows a) by exact Ha.
  rewrite set_slice_extends by slice_side. cbn [bind].
  rewrite !(fill_slice_extends _ _ k grid_size) by lia.
  rewrite sa_rows_length. reflexivity.
Qed.

(** ** The index of the belief nearest to one half *)

Lemma argmin_from_min (l pre : list Q) (best_i : nat) (best : Q) :
  (best_i < length pre)%nat ->
  nth best_i pre 0 = best ->
  (forall j, (j < length pre)%nat -> best <= nth j pre 0) ->
  (argmin_from best_i best (length pre) l < length (pre ++ l))%nat
  /\ forall j, (j < length (pre ++ l))%nat ->
       nth (argmin_from best_i best (length pre) l) (pre ++ l) 0
       <= nth j (pre ++ l) 0.
Proof.
  revert pre best_i best.
  induction l as [|x l IH]; intros pre best_i best Hi Hb Hmin.
  - simpl. rewrite app_nil_r. split; [exact Hi|].
    intros j Hj. rewrite Hb. now apply Hmin.
  - assert (Hlen : S (length pre) = length (pre ++ [x]))
      by (rewrite length_app; simpl; lia).
    assert (Hx : nth (length pre) (pre ++ [x]) 0 = x)
      by (rewrite app_nth2, Nat.sub_diag by lia; reflexivity).
    replace (pre ++ x :: l) with ((pre ++ [x]) ++ l)
      by (rewrite <- app_assoc; reflexivity).
    simpl argmin_from. rewrite Hlen.
    destruct (Qlt_le_dec x best) as [Hlt|Hge]; apply IH.
    + rewrite <- Hlen. lia.
    + exact Hx.
    + intros j Hj. rewrite <- Hlen in Hj.
      destruct (Nat.eq_dec j (length pre)) as [->|Hne].
      * rewrite Hx. apply Qle_refl.
      * rewrite app_nth1 by lia. apply Qle_trans with best.
        -- now apply Qlt_le_weak.
        -- apply Hmin. lia.
    + rewrite <- Hlen. lia.
    + rewrite app_nth1 by exact Hi. exact Hb.
    + intros j Hj. rewrite <- Hlen in Hj.
      destruct (Nat.eq_dec j (length pre)) as [->|Hne].
      * rewrite Hx. exact Hge.
      * rewrite app_nth1 by lia. apply Hmin. lia.
Qed.

Lemma argmin_min (l : list Q) :
  l <> [] ->
  exists h, argmin l = Ok h /\ (h < length l)%nat
            /\ forall j, (j < length l)%nat -> nth h l 0 <= nth j l 0.
Proof.
  destruct l as [|x l]; [congruence|]. intros _.
  exists (argmin_from 0 x 1 l). split; [reflexivity|].
  apply (argmin_from_min l [x] 0 x).
  - simpl. lia.
  - reflexivity.
  - intros j Hj. simpl in Hj. assert (j = 0%nat) by lia. subst j.
    apply Qle_refl.
Qed.

Lemma nth_map_Q (f : Q -> Q) (l : list Q) (j : nat) :
  (j < length l)%nat -> nth j (map f l) 0 = f (nth j l 0).
Proof.
  intro H. rewrite (nth_indep _ 0 (f 0)) by (rewrite length_map; exact H).
  apply map_nth.
Qed.

Lemma prob_half_idx_min (grid : list Q) :
  grid <> [] ->
  exists h, prob_half_idx grid = Ok h /\ (h < length grid)%nat
    /\ (forall j, (j < length grid)%nat ->
          Qabs (nth h grid 0 - 1 / 2) <= Qabs (nth j grid 0 - 1 / 2))
    /\ (forall j, (j < length grid)%nat ->
          nth j grid 0 == 1 / 2 -> nth h grid 0 == 1 / 2).
Proof.
  intro Hne. unfold prob_half_idx.
  destruct (argmin_min (map (fun b => Qabs (b - 1 / 2)) grid))
    as [h [Hh [Hlt Hmin]]].
  { destruct grid; [congruence|discriminate]. }
  rewrite length_map in Hlt, Hmin.
  assert (Hmin' : forall j, (j < length grid)%nat ->
            Qabs (nth h grid 0 - 1 / 2) <= Qabs (nth j grid 0 - 1 / 2)).
  { intros j Hj. specialize (Hmin j Hj).
    now rewrite !nth_map_Q in Hmin by assumption. }
  exists h. split; [exact Hh|]. split; [exact Hlt|]. split; [exact Hmin'|].
  intros j Hj Hhalf. specialize (Hmin' j Hj).
  assert (Hz : Qabs (nth j grid 0 - 1 / 2) == 0).
  { rewrite Hhalf. reflexivity. }
  rewrite Hz in Hmin'.
  pose proof (Qabs_nonneg (nth h grid 0 - 1 / 2)) as Hn.
  destruct (Qabs_Qle_condition (nth h grid 0 - 1 / 2) 0) as [Hc _].
  specialize (Hc Hmin'). lra.
Qed.

(** ** The triplet arrays when the matrix is built *)

Lemma listen_lengths (grid : list Q) :
  length (listen_data grid) = ((1 + 1) * length grid)%nat
  /\ length (listen_rows (length grid)) = ((1 + 1) * length grid)%nat
  /\ length (listen_cols grid) = ((1 + 1) * length grid)%nat.
Proof.
  unfold listen_data, listen_rows, listen_cols.
  rewrite !length_app, !nearest_idx_keys_length, !length_map,
    !sa_rows_length. lia.
Qed.

Lemma tiger_triplets_written (grid : list Q) (h : nat) :
  prob_half_idx grid = Ok h ->
  tiger_triplets grid
  = Ok (written (tiger_data grid) (tiger_rows (length grid))
                (tiger_cols grid h) 0).
Proof.
  intro Hh. unfold tiger_triplets.
  rewrite tiger_listen_written, Hh. cbn [bind for_each].
  destruct (listen_lengths grid) as [Hd [Hr Hc]].
  rewrite (tiger_open_written (length grid) h 1)
    by (try assumption; unfold num_actions; lia).
  cbn [bind].
  rewrite (tiger_open_written (length grid) h 2)
    by (rewrite ?length_app, ?repeat_length, ?sa_rows_length;
        unfold num_actions; lia).
  cbn [bind]. unfold tiger_data, tiger_rows, tiger_cols.
  replace (2 * length grid - length grid - length grid)%nat with 0%nat by lia.
  reflexivity.
Qed.

Lemma tiger_triplets_empty : tiger_triplets [] = Raise ValueError.
Proof. reflexivity. Qed.

Lemma filled_to_written {A : Type} (xs : list A) (k : nat) :
  filled_to (map Some xs ++ repeat None k) (length xs + k) (length xs).
Proof.
  split.
  - now rewrite length_app, length_map, repeat_length.
  - intros i Hi. destruct (Nat.ltb_spec i (length xs)) as [Hlt|Hge].
    + now apply nth_error_written.
    + apply nth_error_unwritten. lia.
Qed.

Lemma written_filled_to (d : list Q) (r c : list nat) (k len n : nat) :
  length d = n -> length r = n -> length c = n -> (n + k)%nat = len ->
  triplets_filled_to (written d r c k) len n.
Proof.
  intros Hd Hr Hc Hk. subst len. unfold triplets_filled_to, written.
  cbn [data row col]. split; [|split].
  - rewrite <- Hd. apply filled_to_written.
  - rewrite <- Hr. apply filled_to_written.
  - rewrite <- Hc. apply filled_to_written.
Qed.

Lemma firstn_written {A : Type} (xs ys : list A) (k k' : nat) :
  firstn (length xs) (map Some (xs ++ ys) ++ repeat None k')
  = firstn (length xs) (map Some xs ++ repeat None k).
Proof.
  rewrite map_app, <- app_assoc.
  rewrite !firstn_app, !length_map, Nat.sub_diag, !firstn_O.
  reflexivity.
Qed.

Lemma written_same_prefix (d d' : list Q) (r r' c c' : list nat) (k k' n : nat) :
  length d = n -> length r = n -> length c = n ->
  same_prefix (written d r c k) (written (d ++ d') (r ++ r') (c ++ c') k') n.
Proof.
  intros Hd Hr Hc. unfold same_prefix, written. cbn [data row col].
  split; [|split].
  - rewrite <- Hd. apply firstn_written.
  - rewrite <- Hr. apply firstn_written.
  - rewrite <- Hc. apply firstn_written.
Qed.

(** C10. The three triplet arrays have [4 * G] cells, none assigned at
    allocation.  The Listen branch assigns exactly the cells [0, 2G); the
    loop body for action 1 assigns exactly [2G, 3G) and leaves the first
    [2G] cells as they were; the body for action 2 assigns exactly
    [3G, 4G) and leaves the first [3G] cells as they were.  The arrays handed
    to [coo_matrix] are these, and reading them meets no unassigned cell. *)
Theorem triplets_completely_written (grid : list Q) :
  triplets_filled_to (tiger_alloc (length grid)) (4 * length grid) 0
  /\ exists t1,
       tiger_listen grid (tiger_alloc (length grid)) = Ok t1
       /\ triplets_filled_to t1 (4 * length grid) (2 * length grid)
       /\ forall h, exists t2,
            tiger_open (length grid) h t1 1 = Ok t2
            /\ triplets_filled_to t2 (4 * length grid) (3 * length grid)
            /\ same_prefix t1 t2 (2 * length grid)
            /\ exists t3,
                 tiger_open (length grid) h t2 2 = Ok t3
                 /\ triplets_filled_to t3 (4 * length grid) (4 * length grid)
                 /\ same_prefix t2 t3 (3 * length grid)
                 /\ (prob_half_idx grid = Ok h -> tiger_triplets grid = Ok t3)
                 /\ exists d r c,
                      read_all (data t3) = Ok d /\ read_all (row t3) = Ok r
                      /\ read_all (col t3) = Ok c
                      /\ length d = (4 * length grid)%nat
                      /\ length r = (4 * length grid)%nat
                      /\ length c = (4 * length grid)%nat.
Proof.
  destruct (listen_lengths grid) as [Hd [Hr Hc]].
  assert (Hd2 : length (listen_data grid ++ repeat 1 (length grid))
                = ((2 + 1) * length grid)%nat)
    by (rewrite length_app, repeat_length; lia).
  assert (Hr2 : length (listen_rows (length grid) ++ sa_rows 1 (length grid))
                = ((2 + 1) * length grid)%nat)
    by (rewrite length_app, sa_rows_length; lia).
  assert (Hc2 : forall h, length (listen_cols grid ++ repeat h (length grid))
                = ((2 + 1) * length grid)%nat)
    by (intro h; rewrite length_app, repeat_length; lia).
  split.
  { rewrite tiger_alloc_written.
    apply written_filled_to; try reflexivity. unfold num_actions. simpl. lia. }
  eexists. split; [apply tiger_listen_written|].
  split; [apply written_filled_to; lia|].
  intro h. eexists. split.
  { apply (tiger_open_written (length grid) h 1);
      try assumption; unfold num_actions; lia. }
  split; [apply written_filled_to; rewrite ?Hd2, ?Hr2, ?Hc2; lia|].
  split; [apply written_same_prefix; lia|].
  eexists. split.
  { apply (tiger_open_written (length grid) h 2);
      rewrite ?Hd2, ?Hr2, ?Hc2; unfold num_actions; lia. }
  split.
  { apply written_filled_to;
      rewrite ?length_app, ?Hd, ?Hr, ?Hc, ?repeat_length, ?sa_rows_length;
      lia. }
  split; [apply written_same_prefix; rewrite ?Hd2, ?Hr2, ?Hc2; lia|].
  split.
  { intro Hh. rewrite (tiger_triplets_written grid h Hh).
    unfold tiger_data, tiger_rows, tiger_cols.
    replace (2 * length grid - length grid - length grid)%nat with 0%nat by lia.
    reflexivity. }
  replace (2 * length grid - length grid - length grid)%nat with 0%nat by lia.
  unfold written. cbn [data row col repeat]. rewrite !app_nil_r.
  do 3 eexists.
  split; [apply read_all_Some|]. split; [apply read_all_Some|].
  split; [apply read_all_Some|].
  rewrite !length_app, Hd, Hr, Hc, !repeat_length, !sa_rows_length.
  repeat split; lia.
Qed.

Lemma triplets_completely_written_witness :
  exists t,
    tiger_triplets [0; 1 # 2; 1] = Ok t
    /\ triplets_filled_to t 12 12.
Proof.
  destruct (triplets_completely_written [0; 1 # 2; 1])
    as [_ [t1 [_ [_ H]]]].
  destruct (H 1%nat) as [t2 [_ [_ [_ [t3 [_ [Hf [_ [Ht _]]]]]]]]].
  exists t3. split; [apply Ht; reflexivity|exact Hf].
Defined.

(** ** The reward vector *)

Lemma zip_with_repeat_map {A B C D : Type} (f : A -> B -> C) (g : D -> B)
  (r : A) (l : list D) :
  zip_with f (repeat r (length l)) (map g l) = map (fun x => f r (g x)) l.
Proof.
  unfold zip_with. induction l as [|x l IH]; [reflexivity|].
  simpl. now rewrite IH.
Qed.

Lemma zip_with_map_map {A B C D : Type} (f : A -> B -> C) (g1 : D -> A)
  (g2 : D -> B) (l : list D) :
  zip_with f (map g1 l) (map g2 l) = map (fun x => f (g1 x) (g2 x)) l.
Proof.
  unfold zip_with. induction l as [|x l IH]; [reflexivity|].
  simpl. now rewrite IH.
Qed.

Lemma flat_map_reward_row_length (grid : list Q) :
  length (flat_map reward_row grid) = (length grid * num_actions)%nat.
Proof.
  induction grid as [|b grid IH]; [reflexivity|].
  simpl. rewrite IH. reflexivity.
Qed.

Lemma tiger_R_closed (grid : list Q) :
  tiger_R grid = Ok (map Some (flat_map reward_row grid)).
Proof.
  unfold tiger_R, np_empty2, fill_column, set_column.
  rewrite map_repeat, !length_map, repeat_length, Nat.eqb_refl.
  cbn [bind].
  rewrite zip_with_repeat_map, length_map, Nat.eqb_refl. cbn [bind].
  rewrite zip_with_map_map.
  rewrite (map_ext _ (fun b => map Some (reward_row b))) by reflexivity.
  unfold reshape_flat.
  rewrite <- map_map, <- concat_map, <- flat_map_concat_map.
  rewrite length_map, flat_map_reward_row_length, Nat.eqb_refl.
  reflexivity.
Qed.





(** ** Column indices *)

Lemma nearest_idx_bound (grid : list Q) (v : npfloat) :
  (nearest_idx grid v <= length grid - 1)%nat.
Proof.
  unfold nearest_idx. rewrite <- mid_points_length.
  apply searchsorted_bounds.
Qed.

Lemma tiger_cols_bound (grid : list Q) (h : nat) :
  grid <> [] -> (h < length grid)%nat ->
  Forall (fun c => (c < length grid)%nat) (tiger_cols grid h).
Proof.
  intros Hne Hh.
  assert (Hpos : (0 < length grid)%nat)
    by (destruct grid; [congruence|simpl; lia]).
  assert (Hn : forall l, Forall (fun c => (c < length grid)%nat)
                           (nearest_idx_keys grid l)).
  { intro l. unfold nearest_idx_keys.
    pose proof (searchsorted_keys_bound (mid_points grid) l) as Hb.
    rewrite mid_points_length in Hb.
    eapply Forall_impl; [|exact Hb]. cbv beta. intros c Hc. lia. }
  assert (Hr : Forall (fun c => (c < length grid)%nat) (repeat h (length grid))).
  { apply Forall_forall. intros c Hc. apply repeat_spec in Hc. now subst c. }
  unfold tiger_cols, listen_cols.
  apply Forall_app; split; [apply Forall_app; split|exact Hr];
    [apply Forall_app; split|exact Hr]; apply Hn.
Qed.

Lemma sa_rows_bound (a grid_size : nat) :
  (a < num_actions)%nat ->
  Forall (fun r => (r < grid_size * num_actions)%nat) (sa_rows a grid_size).
Proof.
  intro Ha. apply Forall_forall. intros r Hr. unfold sa_rows in Hr.
  apply in_map_iff in Hr. destruct Hr as [k [<- Hk]].
  apply in_seq in Hk. unfold num_actions in *. lia.
Qed.

Lemma tiger_rows_bound (grid_size : nat) :
  Forall (fun r => (r < grid_size * num_actions)%nat) (tiger_rows grid_size).
Proof.
  assert (H : forall a, (a < 3)%nat ->
            Forall (fun r => (r < grid_size * num_actions)%nat)
                   (sa_rows a grid_size))
    by (intros a Ha; apply sa_rows_bound; exact Ha).
  unfold tiger_rows, listen_rows.
  apply Forall_app; split; [apply Forall_app; split|];
    [apply Forall_app; split| |]; apply H; lia.
Qed.

Lemma tiger_triplets_ok (grid : list Q) (t : triplets) :
  tiger_triplets grid = Ok t ->
  exists h, prob_half_idx grid = Ok h /\ (h < length grid)%nat
            /\ grid <> []
            /\ t = written (tiger_data grid) (tiger_rows (length grid))
                           (tiger_cols grid h) 0.
Proof.
  intro Ht.
  assert (Hne : grid <> []).
  { intros ->. rewrite tiger_triplets_empty in Ht. discriminate Ht. }
  destruct (prob_half_idx_min grid Hne) as [h [Hh [Hlt _]]].
  exists h. rewrite (tiger_triplets_written grid h Hh) in Ht.
  injection Ht as <-. auto.
Qed.

(** C9. Whatever the grid holds and whatever the value is (finite inside or
    outside [0,1], an infinity or NaN), [nearest_idx grid v] is at most
    [G - 1]; for a grid of at least one point it is a valid index.  Hence
    every cell of the column array [tiger_mdp] builds holds a valid grid
    index. *)
Theorem nearest_idx_in_range :
  (forall (grid : list Q) (v : npfloat),
     (1 <= length grid)%nat ->
     (0 <= nearest_idx grid v <= length grid - 1)%nat
     /\ (nearest_idx grid v < length grid)%nat)
  /\ forall (grid : list Q) (t : triplets),
       tiger_triplets grid = Ok t ->
       forall i, (i < length (col t))%nat ->
         exists c, nth_error (col t) i = Some (Some c)
                   /\ (c < length grid)%nat.
Proof.
  split.
  - intros grid v HG. pose proof (nearest_idx_bound grid v). lia.
  - intros grid t Ht i Hi.
    destruct (tiger_triplets_ok grid t Ht) as [h [_ [Hh [Hne ->]]]].
    unfold written in *. cbn [col repeat] in *.
    rewrite app_nil_r in *. rewrite length_map in Hi.
    destruct (nth_error (tiger_cols grid h) i) as [c|] eqn:E.
    + exists c. split; [now rewrite nth_error_map, E|].
      pose proof (tiger_cols_bound grid h Hne Hh) as HF.
      rewrite Forall_forall in HF. apply HF.
      now apply nth_error_In with i.
    + apply nth_error_None in E. lia.
Qed.

Lemma nearest_idx_in_range_witness :
  (0 <= nearest_idx [0; 1 # 2; 1]%Q (Fin (7 # 2)%Q) <= 3 - 1)%nat
  /\ (nearest_idx [0; 1 # 2; 1]%Q (Fin (7 # 2)%Q) < 3)%nat.
Proof.
  destruct nearest_idx_in_range as [H _].
  apply (H [0; 1 # 2; 1] (Fin (7 # 2))). simpl. lia.
Defined.

(** ** The matrix handed to DiscreteDP *)

Lemma combine_app {A B : Type} (a a' : list A) (b b' : list B) :
  length a = length b ->
  combine (a ++ a') (b ++ b') = combine a b ++ combine a' b'.
Proof.
  revert b. induction a as [|x a IH]; intros [|y b] H; try discriminate H.
  - reflexivity.
  - simpl. f_equal. apply IH. now injection H.
Qed.

Lemma tiger_entries_combine (grid : list Q) (h : nat) :
  combine (combine (tiger_rows (length grid)) (tiger_cols grid h))
          (tiger_data grid)
  = tiger_entries grid h.
Proof.
  unfold tiger_rows, tiger_cols, tiger_data, listen_rows, listen_cols,
    listen_data, tiger_entries, listen_TL_block, listen_TR_block,
    open_block, block.
  repeat (rewrite combine_app
            by (rewrite ?length_combine, ?length_app,
                  ?nearest_idx_keys_length, ?length_map,
                  ?sa_rows_length, ?repeat_length; lia)).
  rewrite <- !app_assoc. reflexivity.
Qed.

Lemma forallb_Forall {A : Type} (f : A -> bool) (P : A -> Prop) (l : list A) :
  (forall x, P x -> f x = true) -> Forall P l -> forallb f l = true.
Proof.
  intros HP HF. apply forallb_forall. intros x Hx.
  apply HP. rewrite Forall_forall in HF. now apply HF.
Qed.

Lemma coo_matrix_written (d : list Q) (r c : list nat) (m n : nat) :
  length r = length d -> length c = length d ->
  Forall (fun i => (i < m)%nat) r -> Forall (fun j => (j < n)%nat) c ->
  coo_matrix (map Some d) (map Some r) (map Some c) m n
  = Ok (mk_coo m n (combine (combine r c) d)).
Proof.
  intros Hr Hc Fr Fc. unfold coo_matrix.
  rewrite !read_all_Some. cbn [bind].
  rewrite Hr, Hc, Nat.eqb_refl. cbn [andb negb].
  rewrite (forallb_Forall _ _ r (fun i H => proj2 (Nat.ltb_lt i m) H) Fr).
  rewrite (forallb_Forall _ _ c (fun j H => proj2 (Nat.ltb_lt j n) H) Fc).
  reflexivity.
Qed.

Lemma tiger_lengths (grid : list Q) (h : nat) :
  length (tiger_data grid) = (4 * length grid)%nat
  /\ length (tiger_rows (length grid)) = (4 * length grid)%nat
  /\ length (tiger_cols grid h) = (4 * length grid)%nat.
Proof.
  destruct (listen_lengths grid) as [Hd [Hr Hc]].
  unfold tiger_data, tiger_rows, tiger_cols.
  rewrite !length_app, Hd, Hr, Hc, !repeat_length, !sa_rows_length. lia.
Qed.

(** On a grid with at least one point [tiger_mdp] returns, and what it
    returns is known in closed form. *)
Lemma DiscreteDP_init_unit (R : list Q) (Qm : coo) (beta : Q)
  (s a : list nat) :
  0 <= beta <= 1 ->
  DiscreteDP_init R Qm beta s a = Ok (mk_DiscreteDP R Qm beta s a).
Proof.
  intros [H0 H1]. unfold DiscreteDP_init.
  apply Qle_bool_iff in H0. apply Qle_bool_iff in H1.
  now rewrite H0, H1.
Qed.

Lemma DiscreteDP_init_Ok (R : list Q) (Qm : coo) (beta : Q)
  (s a : list nat) (m : DiscreteDP) :
  DiscreteDP_init R Qm beta s a = Ok m ->
  0 <= beta <= 1 /\ m = mk_DiscreteDP R Qm beta s a.
Proof.
  unfold DiscreteDP_init.
  destruct (Qle_bool 0 beta) eqn:H0; [|discriminate].
  destruct (Qle_bool beta 1) eqn:H1; [|discriminate].
  cbn [andb]. intro H. injection H as <-.
  apply Qle_bool_iff in H0. apply Qle_bool_iff in H1. auto.
Qed.

Lemma DiscreteDP_init_outside (R : list Q) (Qm : coo) (beta : Q)
  (s a : list nat) :
  beta < 0 \/ 1 < beta ->
  DiscreteDP_init R Qm beta s a = Raise ValueError.
Proof.
  intro H. unfold DiscreteDP_init.
  destruct (Qle_bool 0 beta) eqn:H0; [|reflexivity].
  destruct (Qle_bool beta 1) eqn:H1; [|reflexivity].
  apply Qle_bool_iff in H0. apply Qle_bool_iff in H1. lra.
Qed.

(** On a grid with at least one point [tiger_mdp] reaches the call of the
    constructor, with arguments known in closed form. *)
Lemma tiger_mdp_reaches_init (grid : list Q) (beta : Q) :
  grid <> [] ->
  exists h,
    prob_half_idx grid = Ok h /\ (h < length grid)%nat
    /\ tiger_mdp grid beta
       = DiscreteDP_init
           (flat_map reward_row grid)
           (sum_duplicates
              (mk_coo (length grid * num_actions) (length grid)
                      (tiger_entries grid h)))
           beta
           (np_repeat (arange (length grid)) num_actions)
           (np_tile (arange num_actions) (length grid)).
Proof.
  intros Hne.
  destruct (prob_half_idx_min grid Hne) as [h [Hh [Hlt _]]].
  exists h. split; [exact Hh|]. split; [exact Hlt|].
  unfold tiger_mdp. rewrite tiger_R_closed. cbn [bind].
  rewrite (tiger_triplets_written grid h Hh). cbn [bind].
  unfold written. cbn [data row col repeat]. rewrite !app_nil_r.
  destruct (tiger_lengths grid h) as [Hd [Hr Hc]].
  rewrite coo_matrix_written.
  - cbn [bind]. rewrite read_all_Some. cbn [bind].
    now rewrite tiger_entries_combine.
  - lia.
  - lia.
  - apply tiger_rows_bound.
  - now apply tiger_cols_bound.
Qed.

Lemma tiger_mdp_closed (grid : list Q) (beta : Q) :
  grid <> [] -> 0 <= beta <= 1 ->
  exists h,
    prob_half_idx grid = Ok h /\ (h < length grid)%nat
    /\ tiger_mdp grid beta
       = Ok (mk_DiscreteDP
               (flat_map reward_row grid)
               (sum_duplicates
                  (mk_coo (length grid * num_actions) (length grid)
                          (tiger_entries grid h)))
               beta
               (np_repeat (arange (length grid)) num_actions)
               (np_tile (arange num_actions) (length grid))).
Proof.
  intros Hne Hbeta.
  destruct (tiger_mdp_reaches_init grid beta Hne) as [h [Hh [Hlt Hm]]].
  exists h. split; [exact Hh|]. split; [exact Hlt|].
  rewrite Hm. now apply DiscreteDP_init_unit.
Qed.

Lemma tiger_mdp_empty (beta : Q) : tiger_mdp [] beta = Raise ValueError.
Proof. reflexivity. Qed.

(** ** Rows of the triplet list *)

Lemma filter_block_absent (r : nat) (rows cols : list nat) (vals : list Q) :
  ~ In r rows -> filter (in_row r) (block rows cols vals) = [].
Proof.
  unfold block. revert cols vals.
  induction rows as [|r0 rows IH]; intros cols vals Hn; [reflexivity|].
  destruct cols as [|c cols]; [reflexivity|].
  destruct vals as [|x vals]; [reflexivity|].
  simpl. unfold in_row at 1. cbn [entry_row fst].
  destruct (Nat.eqb_spec r0 r) as [->|Hne].
  - exfalso. apply Hn. now left.
  - apply IH. intro H. apply Hn. now right.
Qed.

Lemma filter_block_unique (rows cols : list nat) (vals : list Q)
  (i r c : nat) (x : Q) :
  NoDup rows ->
  nth_error rows i = Some r -> nth_error cols i = Some c ->
  nth_error vals i = Some x ->
  filter (in_row r) (block rows cols vals) = [(r, c, x)].
Proof.
  revert cols vals i.
  induction rows as [|r0 rows IH]; intros cols vals i Hnd Hr Hc Hx.
  - destruct i; discriminate Hr.
  - destruct cols as [|c0 cols]; [destruct i; discriminate Hc|].
    destruct vals as [|x0 vals]; [destruct i; discriminate Hx|].
    inversion Hnd as [|? ? Hnotin Hnd']; subst.
    change (block (r0 :: rows) (c0 :: cols) (x0 :: vals))
      with ((r0, c0, x0) :: block rows cols vals).
    cbn [filter]. unfold in_row at 1. cbn [entry_row fst].
    destruct i as [|i].
    + injection Hr as ->. injection Hc as ->. injection Hx as ->.
      rewrite Nat.eqb_refl. f_equal. now apply filter_block_absent.
    + simpl in Hr, Hc, Hx.
      destruct (Nat.eqb_spec r0 r) as [->|Hne].
      * exfalso. apply Hnotin. now apply nth_error_In with i.
      * now apply IH with i.
Qed.

Lemma sa_rows_nth (a grid_size g : nat) :
  (g < grid_size)%nat ->
  nth_error (sa_rows a grid_size) g = Some (sa_index g a).
Proof.
  intro H. unfold sa_rows, sa_index.
  rewrite nth_error_map, nth_error_seq.
  destruct (Nat.ltb_spec g grid_size); [|lia].
  simpl. f_equal. lia.
Qed.

Lemma sa_rows_In (a grid_size r : nat) :
  In r (sa_rows a grid_size) ->
  exists k, (k < grid_size)%nat /\ r = sa_index k a.
Proof.
  unfold sa_rows, sa_index. intro H. apply in_map_iff in H.
  destruct H as [k [<- Hk]]. apply in_seq in Hk.
  exists k. split; lia.
Qed.

Lemma sa_index_inj (g a g' a' : nat) :
  (a < num_actions)%nat -> (a' < num_actions)%nat ->
  sa_index g a = sa_index g' a' -> g = g' /\ a = a'.
Proof. unfold sa_index, num_actions. lia. Qed.

Lemma sa_rows_NoDup (a grid_size : nat) : NoDup (sa_rows a grid_size).
Proof.
  unfold sa_rows. generalize 0%nat as s.
  induction grid_size as [|n IH]; intro s; [constructor|].
  cbn [seq map]. constructor; [|apply IH].
  intro H. apply in_map_iff in H. destruct H as [k [Hk Hin]].
  apply in_seq in Hin. unfold num_actions in Hk. lia.
Qed.

Lemma sa_rows_other_action (a a' grid_size g : nat) :
  (a < num_actions)%nat -> (a' < num_actions)%nat -> a <> a' ->
  ~ In (sa_index g a) (sa_rows a' grid_size).
Proof.
  intros Ha Ha' Hne H. apply sa_rows_In in H. destruct H as [k [_ Hk]].
  apply sa_index_inj in Hk; try assumption. destruct Hk as [_ Hk].
  contradiction.
Qed.

(** The raw triplets of a Listen row and of a door row. *)
Lemma nearest_idx_keys_nth (grid : list Q) (v : list npfloat) (g : nat) :
  (g < length v)%nat ->
  exists c, nth_error (nearest_idx_keys grid v) g = Some c.
Proof.
  intro Hg. destruct (nth_error (nearest_idx_keys grid v) g) as [c|] eqn:E.
  - now exists c.
  - apply nth_error_None in E. rewrite nearest_idx_keys_length in E. lia.
Qed.

Lemma tiger_entries_listen_row (grid : list Q) (h g : nat) (b : Q) (cL cR : nat) :
  nth_error grid g = Some b ->
  nth_error (nearest_idx_keys grid (map listen_update_TL grid)) g = Some cL ->
  nth_error (nearest_idx_keys grid (map listen_update_TR grid)) g = Some cR ->
  filter (in_row (sa_index g 0)) (tiger_entries grid h)
  = [(sa_index g 0, cL, prob_TL b noise_prob_default noise_prob_default);
     (sa_index g 0, cR, prob_TR b noise_prob_default noise_prob_default)].
Proof.
  intros Hb HcL HcR.
  assert (Hg : (g < length grid)%nat)
    by (apply nth_error_Some; rewrite Hb; discriminate).
  unfold tiger_entries, listen_TL_block, listen_TR_block, open_block.
  rewrite !filter_app.
  rewrite (filter_block_unique _ _ _ g (sa_index g 0) cL
             (prob_TL b noise_prob_default noise_prob_default)).
  2: apply sa_rows_NoDup.
  2: now apply sa_rows_nth.
  2: exact HcL.
  2: now rewrite nth_error_map, Hb.
  rewrite (filter_block_unique _ _ _ g (sa_index g 0) cR
             (prob_TR b noise_prob_default noise_prob_default)).
  2: apply sa_rows_NoDup.
  2: now apply sa_rows_nth.
  2: exact HcR.
  2: now rewrite nth_error_map, Hb.
  rewrite !filter_block_absent
    by (apply sa_rows_other_action; unfold num_actions; lia).
  reflexivity.
Qed.

Lemma tiger_entries_open_row (grid : list Q) (h g a : nat) :
  (g < length grid)%nat -> a = 1%nat \/ a = 2%nat ->
  filter (in_row (sa_index g a)) (tiger_entries grid h)
  = [(sa_index g a, h, 1)].
Proof.
  intros Hg Ha.
  unfold tiger_entries, listen_TL_block, listen_TR_block, open_block.
  rewrite !filter_app.
  rewrite !(filter_block_absent _ (sa_rows 0 _))
    by (apply sa_rows_other_action; unfold num_actions; lia).
  destruct Ha as [-> | ->].
  - rewrite (filter_block_unique _ _ _ g (sa_index g 1) h 1).
    2: apply sa_rows_NoDup.
    2: now apply sa_rows_nth.
    2: now apply nth_error_repeat.
    2: now apply nth_error_repeat.
    rewrite filter_block_absent
      by (apply sa_rows_other_action; unfold num_actions; lia).
    reflexivity.
  - rewrite (filter_block_absent _ (sa_rows 1 _))
      by (apply sa_rows_other_action; unfold num_actions; lia).
    rewrite (filter_block_unique _ _ _ g (sa_index g 2) h 1).
    2: apply sa_rows_NoDup.
    2: now apply sa_rows_nth.
    2: now apply nth_error_repeat.
    2: now apply nth_error_repeat.
    reflexivity.
Qed.

(** ** Merging duplicate entries *)

Lemma filter_add_entry (r : nat) (e : entry) (acc : list entry) :
  filter (in_row r) (add_entry e acc)
  = if in_row r e then add_entry e (filter (in_row r) acc)
    else filter (in_row r) acc.
Proof.
  induction acc as [|e' acc IH].
  - simpl. now destruct (in_row r e).
  - cbn [add_entry].
    destruct ((entry_row e =? entry_row e')%nat
              && (entry_col e =? entry_col e')%nat) eqn:K.
    + assert (Hn : in_row r (entry_row e', entry_col e',
                             entry_val e' + entry_val e) = in_row r e')
        by reflexivity.
      assert (Hie : in_row r e = in_row r e').
      { unfold in_row. apply andb_prop in K. destruct K as [Kr _].
        apply Nat.eqb_eq in Kr. now rewrite Kr. }
      cbn [filter]. rewrite Hn, Hie.
      destruct (in_row r e'); [|reflexivity].
      cbn [add_entry]. now rewrite K.
    + cbn [filter]. rewrite IH.
      destruct (in_row r e') eqn:E'; destruct (in_row r e) eqn:E;
        try reflexivity.
      cbn [add_entry]. now rewrite K.
Qed.

Lemma filter_fold_add_entry (r : nat) (es acc : list entry) :
  filter (in_row r) (fold_left (fun acc e => add_entry e acc) es acc)
  = fold_left (fun acc e => add_entry e acc) (filter (in_row r) es)
              (filter (in_row r) acc).
Proof.
  revert acc. induction es as [|e es IH]; intro acc; [reflexivity|].
  cbn [fold_left filter]. rewrite IH, filter_add_entry.
  now destruct (in_row r e).
Qed.

(** A row of the merged matrix is the merge of that row of the triplets. *)
Lemma coo_row_sum_duplicates (M : coo) (r : nat) :
  coo_row (sum_duplicates M) r = merge_entries (coo_row M r).
Proof.
  unfold coo_row, sum_duplicates, merge_entries. cbn [coo_entries].
  apply filter_fold_add_entry.
Qed.



(** ** Row sums *)


(** * Further properties of the notebook's code *)

(** ** Sorted midpoints and the number of midpoints below a value *)













(** ** What [nearest_idx] returns *)











(** ** The Bayes update away from a zero denominator *)



(** ** Rows of the merged matrix *)







(** ** The index vectors *)

Lemma nth_error_np_repeat (n k g a : nat) :
  (g < n)%nat -> (a < k)%nat ->
  nth_error (np_repeat (arange n) k) (g * k + a) = Some g.
Proof.
  unfold np_repeat, arange. intros Hg Ha.
  assert (H : forall s, nth_error (flat_map (fun x => repeat x k) (seq s n))
                                  (g * k + a) = Some (s + g)%nat).
  { revert g Hg. induction n as [|n IH]; intros g Hg s; [lia|].
    cbn [seq flat_map]. destruct g as [|g].
    - rewrite nth_error_app1 by (rewrite repeat_length; simpl; lia).
      simpl. rewrite nth_error_repeat by exact Ha. f_equal. lia.
    - rewrite nth_error_app2 by (rewrite repeat_length; simpl; lia).
      rewrite repeat_length.
      replace (S g * k + a - k)%nat with (g * k + a)%nat by (simpl; lia).
      rewrite IH by lia. f_equal. lia. }
  apply H.
Qed.

Lemma nth_error_np_tile {A : Type} (l : list A) (n g a : nat) :
  (g < n)%nat -> (a < length l)%nat ->
  nth_error (np_tile l n) (g * length l + a) = nth_error l a.
Proof.
  unfold np_tile. revert g. induction n as [|n IH]; intros g Hg Ha; [lia|].
  cbn [repeat concat]. destruct g as [|g].
  - now rewrite nth_error_app1 by (simpl; lia).
  - rewrite nth_error_app2 by (simpl; lia).
    replace (S g * length l + a - length l)%nat
      with (g * length l + a)%nat by (simpl; lia).
    apply IH; lia.
Qed.

Lemma np_repeat_length (n k : nat) :
  length (np_repeat (arange n) k) = (n * k)%nat.
Proof.
  unfold np_repeat, arange. generalize 0%nat as s.
  induction n as [|n IH]; intro s; [reflexivity|].
  cbn [seq flat_map]. rewrite length_app, repeat_length, IH. simpl. lia.
Qed.

Lemma np_tile_length {A : Type} (l : list A) (n : nat) :
  length (np_tile l n) = (n * length l)%nat.
Proof.
  unfold np_tile. induction n as [|n IH]; [reflexivity|].
  cbn [repeat concat]. rewrite length_app, IH. simpl. lia.
Qed.

Lemma tiger_mdp_Ok_closed (grid : list Q) (beta : Q) (m : DiscreteDP) :
  tiger_mdp grid beta = Ok m ->
  grid <> []
  /\ 0 <= beta <= 1
  /\ ddp_beta m = beta
  /\ ddp_s_indices m = np_repeat (arange (length grid)) num_actions
  /\ ddp_a_indices m = np_tile (arange num_actions) (length grid).
Proof.
  intro Hm.
  assert (Hne : grid <> []).
  { intros ->. rewrite tiger_mdp_empty in Hm. discriminate Hm. }
  destruct (tiger_mdp_reaches_init grid beta Hne) as [h [_ [_ Hc]]].
  rewrite Hc in Hm. apply DiscreteDP_init_Ok in Hm.
  destruct Hm as [Hbeta ->]. auto.
Qed.

(** The two index vectors handed to DiscreteDP undo the flattening: both
    have [G * 3] entries, and at the state-action index [g * 3 + a] the
    state vector holds [g] and the action vector holds [a]; position [i]
    holds [i / 3] and [i mod 3]. *)
Theorem state_action_indices (grid : list Q) (beta : Q) (m : DiscreteDP) :
  tiger_mdp grid beta = Ok m ->
  length (ddp_s_indices m) = (length grid * num_actions)%nat
  /\ length (ddp_a_indices m) = (length grid * num_actions)%nat
  /\ (forall g a, (g < length grid)%nat -> (a < num_actions)%nat ->
        nth_error (ddp_s_indices m) (sa_index g a) = Some g
        /\ nth_error (ddp_a_indices m) (sa_index g a) = Some a)
  /\ (forall i, (i < length grid * num_actions)%nat ->
        nth_error (ddp_s_indices m) i = Some (i / num_actions)%nat
        /\ nth_error (ddp_a_indices m) i = Some (i mod num_actions)%nat).
Proof.
  intro Hm.
  destruct (tiger_mdp_Ok_closed grid beta m Hm) as [_ [_ [_ [-> ->]]]].
  assert (Hpair : forall g a, (g < length grid)%nat -> (a < num_actions)%nat ->
            nth_error (np_repeat (arange (length grid)) num_actions)
                      (sa_index g a) = Some g
            /\ nth_error (np_tile (arange num_actions) (length grid))
                         (sa_index g a) = Some a).
  { intros g a Hg Ha. unfold sa_index. split.
    - now apply nth_error_np_repeat.
    - change num_actions with (length (arange num_actions)) at 2.
      rewrite nth_error_np_tile
        by (try exact Hg; unfold arange; rewrite length_seq; exact Ha).
      unfold arange. rewrite nth_error_seq.
      destruct (Nat.ltb_spec a num_actions); [reflexivity|lia]. }
  split; [apply np_repeat_length|].
  split; [rewrite np_tile_length; unfold arange; rewrite length_seq; lia|].
  split; [exact Hpair|].
  intros i Hi. unfold num_actions in *.
  assert (Hg : (i / 3 < length grid)%nat)
    by (apply Nat.Div0.div_lt_upper_bound; lia).
  pose proof (Nat.mod_upper_bound i 3 ltac:(lia)) as Ha.
  destruct (Hpair (i / 3)%nat (i mod 3)%nat Hg Ha) as [H1 H2].
  unfold sa_index, num_actions in H1, H2.
  replace (i / 3 * 3 + i mod 3)%nat with i in H1, H2
    by (rewrite (Nat.div_mod_eq i 3) at 1; lia).
  split; assumption.
Qed.

Lemma state_action_indices_witness :
  exists m,
    tiger_mdp [0; 1 # 2; 1] (95 # 100) = Ok m
    /\ nth_error (ddp_s_indices m) (sa_index 2 1) = Some 2%nat
    /\ nth_error (ddp_a_indices m) (sa_index 2 1) = Some 1%nat.
Proof.
  eexists. split; [vm_compute; reflexivity|].
  refine (match state_action_indices [0; 1 # 2; 1] (95 # 100) _ eq_refl with
          | conj _ (conj _ (conj H _)) => H 2%nat 1%nat _ _
          end); unfold num_actions; simpl; lia.
Defined.

(** ** When [tiger_mdp] returns *)

(** [tiger_mdp] raises ValueError on the empty grid (the argmin of an empty
    array) and, on any other grid, when the discount factor is outside
    [0,1] (refused by the constructor it calls last); it returns on every
    nonempty grid with a discount factor in [0,1] and hands that factor
    on. *)
Theorem tiger_mdp_returns (grid : list Q) (beta : Q) :
  (grid = [] -> tiger_mdp grid beta = Raise ValueError)
  /\ (grid <> [] -> beta < 0 \/ 1 < beta ->
      tiger_mdp grid beta = Raise ValueError)
  /\ (grid <> [] -> 0 <= beta <= 1 ->
      exists m, tiger_mdp grid beta = Ok m /\ ddp_beta m = beta)
  /\ (forall m, tiger_mdp grid beta = Ok m -> grid <> [] /\ 0 <= beta <= 1).
Proof.
  split; [intros ->; apply tiger_mdp_empty|]. split; [|split].
  - intros Hne Hout.
    destruct (tiger_mdp_reaches_init grid beta Hne) as [h [_ [_ Hm]]].
    rewrite Hm. now apply DiscreteDP_init_outside.
  - intros Hne Hbeta.
    destruct (tiger_mdp_closed grid beta Hne Hbeta) as [h [_ [_ Hm]]].
    eexists. split; [exact Hm|reflexivity].
  - intros m Hm.
    destruct (tiger_mdp_Ok_closed grid beta m Hm) as [H1 [H2 _]]. auto.
Qed.

Lemma tiger_mdp_returns_witness :
  tiger_mdp [1 # 4] (-(7)) = Raise ValueError
  /\ exists m, tiger_mdp [1 # 4] (95 # 100) = Ok m /\ ddp_beta m = 95 # 100.
Proof.
  destruct (tiger_mdp_returns [1 # 4] (-(7))) as [_ [Hout _]].
  destruct (tiger_mdp_returns [1 # 4] (95 # 100)) as [_ [_ [Hin _]]].
  split.
  - apply Hout; [discriminate|left; reflexivity].
  - apply Hin; [discriminate|split; discriminate].
Defined.

(** ** Rewards *)



(** ** The uniform grid as input *)




(** The notebook's pipeline, grid then MDP, for a discount factor in [0,1]:
    for every count [G >= 1] the grid is built and [tiger_mdp] returns on
    it; for [G = 0] the grid is built empty and the error comes from
    [tiger_mdp]. *)
Theorem belief_grid_then_tiger_mdp (beta : Q) :
  0 <= beta <= 1 ->
  (forall G : Z, (1 <= G)%Z ->
     exists grid m,
       belief_grid G = Ok grid /\ length grid = Z.to_nat G
       /\ tiger_mdp grid beta = Ok m)
  /\ (grid <- belief_grid 0 ;; tiger_mdp grid beta) = Raise ValueError.
Proof.
  intro Hbeta. split; [|reflexivity].
  intros G HG.
  assert (H : exists grid, belief_grid G = Ok grid
                           /\ length grid = Z.to_nat G /\ grid <> []).
  { destruct (Z.eq_dec G 1) as [->|Hne].
    - exists [0]. repeat split. discriminate.
    - unfold belief_grid. rewrite linspace_unit by lia.
      eexists. split; [reflexivity|]. split.
      + rewrite length_app, length_map, length_seq. simpl. lia.
      + intro E. apply app_eq_nil in E. destruct E as [_ E]. discriminate E. }
  destruct H as [grid [Hg [Hlen Hne]]].
  destruct (tiger_mdp_closed grid beta Hne Hbeta) as [h [_ [_ Hm]]].
  exists grid. eexists. split; [exact Hg|]. split; [exact Hlen|exact Hm].
Qed.

Lemma belief_grid_then_tiger_mdp_witness :
  exists grid m,
    belief_grid 3 = Ok grid /\ length grid = 3%nat
    /\ tiger_mdp grid (95 # 100) = Ok m.
Proof.
  destruct (belief_grid_then_tiger_mdp (95 # 100)) as [H _].
  - split; discriminate.
  - apply (H 3%Z). lia.
Defined.

(** ** Ties in the reset target *)




(** ** The triplets before merging *)

(** The triplets handed to [coo_matrix] are accepted (one length, every
    index inside the shape); there are [4 * G] of them, two in every Listen
    row and one in every door row.  After merging a Listen row has one or
    two entries. *)
Theorem triplet_counts (grid : list Q) (t : triplets) :
  tiger_triplets grid = Ok t ->
  exists M,
    coo_matrix (data t) (row t) (col t)
               (length grid * num_actions) (length grid) = Ok M
    /\ length (coo_entries M) = (4 * length grid)%nat
    /\ forall g, (g < length grid)%nat ->
         length (coo_row M (sa_index g 0)) = 2%nat
         /\ length (coo_row M (sa_index g 1)) = 1%nat
         /\ length (coo_row M (sa_index g 2)) = 1%nat
         /\ (1 <= length (coo_row (sum_duplicates M) (sa_index g 0)) <= 2)%nat.
Proof.
  intro Ht.
  destruct (tiger_triplets_ok grid t Ht) as [h [_ [Hh [Hne ->]]]].
  unfold written. cbn [data row col repeat]. rewrite !app_nil_r.
  destruct (tiger_lengths grid h) as [Hd [Hr Hc]].
  rewrite coo_matrix_written;
    [|lia|lia|apply tiger_rows_bound|now apply tiger_cols_bound].
  eexists. split; [reflexivity|]. cbn [coo_entries].
  split.
  { unfold entry. rewrite !length_combine. lia. }
  intros g Hg. rewrite coo_row_sum_duplicates. unfold coo_row.
  cbn [coo_entries]. rewrite tiger_entries_combine.
  destruct (nth_error grid g) as [b|] eqn:Hb;
    [|apply nth_error_None in Hb; lia].
  destruct (nearest_idx_keys_nth grid (map listen_update_TL grid) g)
    as [cL HcL]; [rewrite length_map; exact Hg|].
  destruct (nearest_idx_keys_nth grid (map listen_update_TR grid) g)
    as [cR HcR]; [rewrite length_map; exact Hg|].
  rewrite (tiger_entries_listen_row grid h g b cL cR Hb HcL HcR).
  rewrite (tiger_entries_open_row grid h g 1 Hg) by now left.
  rewrite (tiger_entries_open_row grid h g 2 Hg) by now right.
  repeat split; try reflexivity;
    unfold merge_entries;
    cbn [fold_left add_entry entry_row entry_col entry_val fst snd];
    destruct (_ && _); simpl; lia.
Qed.

Lemma triplet_counts_witness :
  exists t M,
    tiger_triplets [0; 1 # 2; 1] = Ok t
    /\ coo_matrix (data t) (row t) (col t) (3 * num_actions) 3 = Ok M
    /\ length (coo_entries M) = 12%nat.
Proof.
  eexists.
  destruct (triplet_counts [0; 1 # 2; 1] _ eq_refl) as [M [HM [Hlen _]]].
  exists M. split; [reflexivity|]. split; [exact HM|exact Hlen].
Defined.

(** ** Observation probabilities as probabilities *)



(** * Properties of the program on binary64 numbers *)

(** ** The order of floats *)

Lemma SFcompare_rank (f1 f2 : spec_float) :
  SFcompare f1 f2
  = match SFrank f1, SFrank f2 with
    | Some a, Some b => Some (lex_compare a b)
    | _, _ => None
    end.
Proof.
  destruct f1 as [s1|s1| |s1 m1 e1], f2 as [s2|s2| |s2 m2 e2];
    try destruct s1; try destruct s2; try reflexivity.
  cbn [SFcompare SFrank]. unfold lex_compare. cbn [fst snd].
  rewrite Z.compare_refl, Z.compare_opp, (Z.compare_antisym e1 e2).
  destruct (e1 ?= e2)%Z; reflexivity.
Qed.

Lemma lex_compare_Lt (a b : Z * Z * Z) : lex_compare a b = Lt <-> lex_lt a b.
Proof.
  destruct a as [[a1 a2] a3], b as [[b1 b2] b3].
  unfold lex_compare, lex_lt. cbn [fst snd].
  destruct (Z.compare_spec a1 b1); destruct (Z.compare_spec a2 b2);
    destruct (Z.compare_spec a3 b3); split; intro HH;
    try discriminate; try reflexivity; try lia.
Qed.

Lemma lex_compare_Eq (a b : Z * Z * Z) : lex_compare a b = Eq <-> a = b.
Proof.
  destruct a as [[a1 a2] a3], b as [[b1 b2] b3].
  unfold lex_compare. cbn [fst snd].
  destruct (Z.compare_spec a1 b1); destruct (Z.compare_spec a2 b2);
    destruct (Z.compare_spec a3 b3); split; intro HH;
    try discriminate; try reflexivity; try (injection HH; lia);
    try (f_equal; [f_equal|]; lia).
Qed.

Lemma ltb_rank (x y : float) :
  (x <? y)%float = true
  <-> exists a b, rank x = Some a /\ rank y = Some b /\ lex_lt a b.
Proof.
  rewrite ltb_spec. unfold SFltb, rank. rewrite SFcompare_rank.
  destruct (SFrank (Prim2SF x)) as [a|], (SFrank (Prim2SF y)) as [b|].
  - split.
    + intro H. exists a, b. split; [reflexivity|]. split; [reflexivity|].
      apply lex_compare_Lt. destruct (lex_compare a b); congruence.
    + intros [a' [b' [Ha [Hb H]]]]. injection Ha as <-. injection Hb as <-.
      apply lex_compare_Lt in H. now rewrite H.
  - split; [discriminate|]. intros [a' [b' [_ [Hb _]]]]. discriminate Hb.
  - split; [discriminate|]. intros [a' [b' [Ha _]]]. discriminate Ha.
  - split; [discriminate|]. intros [a' [b' [Ha _]]]. discriminate Ha.
Qed.

Lemma leb_rank (x y : float) :
  (x <=? y)%float = true
  <-> exists a b, rank x = Some a /\ rank y = Some b /\ (lex_lt a b \/ a = b).
Proof.
  rewrite leb_spec. unfold SFleb, rank. rewrite SFcompare_rank.
  destruct (SFrank (Prim2SF x)) as [a|], (SFrank (Prim2SF y)) as [b|].
  - split.
    + intro H. exists a, b. split; [reflexivity|]. split; [reflexivity|].
      destruct (lex_compare a b) eqn:E; try discriminate.
      * right. now apply lex_compare_Eq.
      * left. now apply lex_compare_Lt.
    + intros [a' [b' [Ha [Hb H]]]]. injection Ha as <-. injection Hb as <-.
      destruct H as [H|H].
      * apply lex_compare_Lt in H. now rewrite H.
      * apply lex_compare_Eq in H. now rewrite H.
  - split; [discriminate|]. intros [a' [b' [_ [Hb _]]]]. discriminate Hb.
  - split; [discriminate|]. intros [a' [b' [Ha _]]]. discriminate Ha.
  - split; [discriminate|]. intros [a' [b' [Ha _]]]. discriminate Ha.
Qed.

Lemma is_nan_rank (x : float) :
  is_nan x = false <-> exists a, rank x = Some a.
Proof.
  unfold is_nan, rank. rewrite eqb_spec. unfold SFeqb.
  rewrite SFcompare_rank.
  destruct (SFrank (Prim2SF x)) as [a|].
  - assert (H : lex_compare a a = Eq) by now apply lex_compare_Eq.
    rewrite H. split; [intros _; now exists a|reflexivity].
  - split; [discriminate|]. intros [a Ha]. discriminate Ha.
Qed.

Lemma lex_lt_trans (a b c : Z * Z * Z) : lex_lt a b -> lex_lt b c -> lex_lt a c.
Proof.
  destruct a as [[a1 a2] a3], b as [[b1 b2] b3], c as [[c1 c2] c3].
  unfold lex_lt. cbn [fst snd]. lia.
Qed.

Lemma lex_lt_irrefl (a : Z * Z * Z) : ~ lex_lt a a.
Proof.
  destruct a as [[a1 a2] a3]. unfold lex_lt. cbn [fst snd]. lia.
Qed.

Lemma lex_total (a b : Z * Z * Z) : lex_lt a b \/ a = b \/ lex_lt b a.
Proof.
  destruct a as [[a1 a2] a3], b as [[b1 b2] b3].
  unfold lex_lt. cbn [fst snd].
  destruct (Z.lt_total a1 b1) as [H|[H|H]]; [lia| |lia].
  destruct (Z.lt_total a2 b2) as [H2|[H2|H2]]; [lia| |lia].
  destruct (Z.lt_total a3 b3) as [H3|[H3|H3]]; [lia| |lia].
  right. left. congruence.
Qed.

Ltac ranks :=
  repeat match goal with
  | H : (_ <? _)%float = true |- _ => apply ltb_rank in H; destruct H as (? & ? & ? & ? & H)
  | H : (_ <=? _)%float = true |- _ => apply leb_rank in H; destruct H as (? & ? & ? & ? & H)
  | H : is_nan _ = false |- _ => apply is_nan_rank in H; destruct H as (? & H)
  end;
  repeat match goal with
  | H : rank ?x = Some ?a, H' : rank ?x = Some ?b |- _ =>
      rewrite H in H'; injection H' as <-
  end.

Lemma ltb_trans (x y z : float) :
  (x <? y)%float = true -> (y <? z)%float = true -> (x <? z)%float = true.
Proof.
  intros H1 H2. ranks. apply ltb_rank. do 2 eexists.
  split; [eassumption|]. split; [eassumption|].
  eapply lex_lt_trans; eassumption.
Qed.

Lemma ltb_leb_trans (x y z : float) :
  (x <? y)%float = true -> (y <=? z)%float = true -> (x <? z)%float = true.
Proof.
  intros H1 H2. ranks. apply ltb_rank. do 2 eexists.
  split; [eassumption|]. split; [eassumption|].
  destruct H2 as [H2| <-]; [eapply lex_lt_trans; eassumption|assumption].
Qed.

Lemma leb_ltb_trans (x y z : float) :
  (x <=? y)%float = true -> (y <? z)%float = true -> (x <? z)%float = true.
Proof.
  intros H1 H2. ranks. apply ltb_rank. do 2 eexists.
  split; [eassumption|]. split; [eassumption|].
  destruct H1 as [H1| ->]; [eapply lex_lt_trans; eassumption|assumption].
Qed.

Lemma leb_trans (x y z : float) :
  (x <=? y)%float = true -> (y <=? z)%float = true -> (x <=? z)%float = true.
Proof.
  intros H1 H2. ranks. apply leb_rank. do 2 eexists.
  split; [eassumption|]. split; [eassumption|].
  destruct H1 as [H1| ->]; [|assumption].
  destruct H2 as [H2| <-]; [|now left].
  left. eapply lex_lt_trans; eassumption.
Qed.

Lemma ltb_leb (x y : float) :
  (x <? y)%float = true -> (x <=? y)%float = true.
Proof.
  intros H. ranks. apply leb_rank. do 2 eexists.
  split; [eassumption|]. split; [eassumption|]. now left.
Qed.

Lemma ltb_not_leb (x y : float) :
  (x <? y)%float = true -> (y <=? x)%float = false.
Proof.
  intros H1. destruct (y <=? x)%float eqn:H2; [|reflexivity].
  ranks. exfalso. destruct H2 as [H2| ->].
  - eapply lex_lt_irrefl, lex_lt_trans; eassumption.
  - eapply lex_lt_irrefl; eassumption.
Qed.

Lemma leb_not_ltb (x y : float) :
  (x <=? y)%float = true -> (y <? x)%float = false.
Proof.
  intros H1. destruct (y <? x)%float eqn:H2; [|reflexivity].
  apply ltb_not_leb in H2. congruence.
Qed.

Lemma ltb_not_nan (x y : float) :
  (x <? y)%float = true -> is_nan x = false /\ is_nan y = false.
Proof.
  intros H. ranks. split; apply is_nan_rank; eexists; eassumption.
Qed.

Lemma leb_not_nan (x y : float) :
  (x <=? y)%float = true -> is_nan x = false /\ is_nan y = false.
Proof.
  intros H. ranks. split; apply is_nan_rank; eexists; eassumption.
Qed.

Lemma leb_total (x y : float) :
  is_nan x = false -> is_nan y = false ->
  (x <=? y)%float = false -> (y <? x)%float = true.
Proof.
  intros Hx Hy H. ranks. apply ltb_rank. do 2 eexists.
  split; [eassumption|]. split; [eassumption|].
  match goal with
  | Hx : rank x = Some ?a, Hy : rank y = Some ?b |- _ =>
      destruct (lex_total a b) as [L|[L|L]]; [| |exact L];
      exfalso;
      assert (E : (x <=? y)%float = true)
        by (apply leb_rank; do 2 eexists;
            split; [exact Hx|]; split; [exact Hy|]; tauto);
      congruence
  end.
Qed.

Lemma leb_refl (x : float) : is_nan x = false -> (x <=? x)%float = true.
Proof.
  intros H. ranks. apply leb_rank. do 2 eexists.
  split; [eassumption|]. split; [eassumption|]. now right.
Qed.

Local Open Scope float_scope.

(** ** Zero, absolute value and addition *)

Lemma neg_zero_add (y : float) : -0 + y = y.
Proof.
  apply Prim2SF_inj. rewrite add_spec.
  replace (Prim2SF (-0)) with (S754_zero true) by reflexivity.
  unfold SF64add, SFadd.
  destruct (Prim2SF y) as [[|]|[|]| |s m e]; reflexivity.
Qed.


Lemma abs_leb_zero (x : float) : (abs x <=? 0) = true -> abs x = 0.
Proof.
  intro H. apply leb_rank in H. destruct H as [a [b [Ha [Hb H]]]].
  apply Prim2SF_inj. unfold rank in Ha, Hb. rewrite abs_spec in Ha |- *.
  replace (Prim2SF 0) with (S754_zero false) in Hb |- * by reflexivity.
  cbn [SFrank] in Hb. injection Hb as <-.
  destruct (Prim2SF x) as [s|s| |s m e]; cbn [SFabs SFrank] in Ha |- *.
  - reflexivity.
  - injection Ha as <-. exfalso. unfold lex_lt in H. cbn [fst snd] in H.
    destruct H as [H|H]; [lia|discriminate H].
  - discriminate Ha.
  - injection Ha as <-. exfalso. unfold lex_lt in H. cbn [fst snd] in H.
    destruct H as [H|H]; [lia|discriminate H].
Qed.

(** ** argmin *)

Lemma f64_argmin_from_spec (l pre : list float) (best_i : nat) (best : float) :
  (best_i < length pre)%nat ->
  nth best_i pre 0 = best ->
  (forall j, (j < length pre)%nat -> is_nan (nth j pre 0) = false) ->
  (forall j, (j < length pre)%nat -> (best <=? nth j pre 0) = true) ->
  (forall j, (j < best_i)%nat -> (best <? nth j pre 0) = true) ->
  first_min (pre ++ l) (F64.argmin_from best_i best (length pre) l).
Proof.
  revert pre best_i best.
  induction l as [|x l IH]; intros pre best_i best Hi Hb Hnan Hmin Hfirst.
  - cbn [F64.argmin_from]. rewrite app_nil_r. split; [exact Hi|]. split.
    + intros j Hj. right. rewrite Hb. now apply Hmin.
    + intros j Hj. split; [apply Hnan; lia|]. right. rewrite Hb.
      now apply Hfirst.
  - assert (Hlen : S (length pre) = length (pre ++ [x]))
      by (rewrite length_app; simpl; lia).
    assert (Hx : nth (length pre) (pre ++ [x]) 0 = x)
      by (rewrite app_nth2, Nat.sub_diag by lia; reflexivity).
    assert (Hbn : is_nan best = false) by (rewrite <- Hb; now apply Hnan).
    cbn [F64.argmin_from].
    destruct (best <=? x) eqn:Hle; cbn [negb].
    + replace (pre ++ x :: l) with ((pre ++ [x]) ++ l)
        by (rewrite <- app_assoc; reflexivity).
      rewrite Hlen. apply IH.
      * rewrite <- Hlen. lia.
      * rewrite app_nth1 by exact Hi. exact Hb.
      * intros j Hj. rewrite <- Hlen in Hj.
        destruct (Nat.eq_dec j (length pre)) as [->|Hne].
        -- rewrite Hx. now apply leb_not_nan in Hle.
        -- rewrite app_nth1 by lia. apply Hnan. lia.
      * intros j Hj. rewrite <- Hlen in Hj.
        destruct (Nat.eq_dec j (length pre)) as [->|Hne].
        -- rewrite Hx. exact Hle.
        -- rewrite app_nth1 by lia. apply Hmin. lia.
      * intros j Hj. rewrite app_nth1 by lia. now apply Hfirst.
    + destruct (is_nan x) eqn:Hxn.
      * split; [rewrite length_app; simpl; lia|].
        assert (Hh : nth (length pre) (pre ++ x :: l) 0 = x)
          by (rewrite app_nth2, Nat.sub_diag by lia; reflexivity).
        rewrite Hh. split.
        -- intros j Hj. now left.
        -- intros j Hj. rewrite app_nth1 by exact Hj.
           split; [now apply Hnan|now left].
      * assert (Hlt : (x <? best) = true) by now apply leb_total.
        replace (pre ++ x :: l) with ((pre ++ [x]) ++ l)
          by (rewrite <- app_assoc; reflexivity).
        rewrite Hlen. apply IH.
        -- rewrite <- Hlen. lia.
        -- exact Hx.
        -- intros j Hj. rewrite <- Hlen in Hj.
           destruct (Nat.eq_dec j (length pre)) as [->|Hne].
           ++ rewrite Hx. exact Hxn.
           ++ rewrite app_nth1 by lia. apply Hnan. lia.
        -- intros j Hj. rewrite <- Hlen in Hj.
           destruct (Nat.eq_dec j (length pre)) as [->|Hne].
           ++ rewrite Hx. now apply leb_refl.
           ++ rewrite app_nth1 by lia. apply ltb_leb.
              apply ltb_leb_trans with best; [exact Hlt|]. apply Hmin. lia.
        -- intros j Hj. rewrite app_nth1 by exact Hj.
           apply ltb_leb_trans with best; [exact Hlt|]. now apply Hmin.
Qed.

Lemma f64_argmin_spec (l : list float) :
  l <> [] -> exists h, F64.argmin l = Ok h /\ first_min l h.
Proof.
  destruct l as [|x l]; [congruence|]. intros _.
  cbn [F64.argmin]. eexists. split; [reflexivity|].
  destruct (is_nan x) eqn:Hx.
  - split; [simpl; lia|]. split.
    + intros j Hj. left. exact Hx.
    + intros j Hj. lia.
  - apply (f64_argmin_from_spec l [x] 0 x).
    + simpl. lia.
    + reflexivity.
    + intros j Hj. simpl in Hj. assert (j = 0%nat) by lia. now subst j.
    + intros j Hj. simpl in Hj. assert (j = 0%nat) by lia. subst j.
      now apply leb_refl.
    + intros j Hj. lia.
Qed.

Lemma f64_prob_half_idx_spec (grid : list float) :
  grid <> [] ->
  exists h, F64.prob_half_idx grid = Ok h
            /\ (h < length grid)%nat
            /\ first_min (map F64.half_distance grid) h.
Proof.
  intro Hne. unfold F64.prob_half_idx.
  destruct (f64_argmin_spec (map F64.half_distance grid)) as [h [Hh Hm]].
  { destruct grid; [congruence|discriminate]. }
  exists h. split; [exact Hh|]. split; [|exact Hm].
  destruct Hm as [Hlt _]. now rewrite length_map in Hlt.
Qed.

Lemma f64_prob_half_idx_empty : F64.prob_half_idx [] = Raise ValueError.
Proof. reflexivity. Qed.

(** ** Binary search *)

Section F64_Binsearch.

Variable a : list float.
Variable v : float.

Lemma f64_binsearch_left_S (fuel lo hi : nat) :
  F64.binsearch_left (S fuel) a v lo hi =
  if (lo <? hi)%nat then
    if F64.np_less (nth (lo + (hi - lo) / 2) a 0) v
    then F64.binsearch_left fuel a v (S (lo + (hi - lo) / 2)) hi
    else F64.binsearch_left fuel a v lo (lo + (hi - lo) / 2)
  else lo.
Proof. reflexivity. Qed.

Lemma f64_binsearch_left_bounds (fuel lo hi : nat) :
  (lo <= hi)%nat ->
  (lo <= F64.binsearch_left fuel a v lo hi <= hi)%nat.
Proof.
  revert lo hi. induction fuel as [|fuel IH]; intros lo hi Hle.
  - simpl. lia.
  - rewrite f64_binsearch_left_S.
    destruct (Nat.ltb_spec lo hi) as [Hlt|Hge]; [|lia].
    pose proof (half_below lo hi Hlt) as Hm.
    destruct (F64.np_less _ v).
    + specialize (IH (S (lo + (hi - lo) / 2)) hi). lia.
    + specialize (IH lo (lo + (hi - lo) / 2)%nat). lia.
Qed.

Lemma f64_binsearch_left_finds (k fuel lo hi : nat) :
  (forall i, (i < k)%nat -> F64.np_less (nth i a 0) v = true) ->
  (forall i, (k <= i < length a)%nat -> F64.np_less (nth i a 0) v = false) ->
  (lo <= k <= hi)%nat -> (hi <= length a)%nat -> (hi - lo <= fuel)%nat ->
  F64.binsearch_left fuel a v lo hi = k.
Proof.
  intros Hlow Hhigh. revert lo hi.
  induction fuel as [|fuel IH]; intros lo hi Hk Hhi Hf.
  - simpl. lia.
  - rewrite f64_binsearch_left_S.
    destruct (Nat.ltb_spec lo hi) as [Hlt|Hge]; [|lia].
    pose proof (half_below lo hi Hlt) as Hm.
    destruct (F64.np_less (nth (lo + (hi - lo) / 2) a 0) v) eqn:E.
    + apply IH; try lia.
      destruct (Nat.lt_ge_cases (lo + (hi - lo) / 2) k) as [Hc|Hc]; [lia|].
      rewrite Hhigh in E by lia. discriminate E.
    + apply IH; try lia.
      destruct (Nat.lt_ge_cases (lo + (hi - lo) / 2) k) as [Hc|Hc]; [|lia].
      rewrite Hlow in E by lia. discriminate E.
Qed.

Lemma f64_searchsorted_finds (k : nat) :
  (k <= length a)%nat ->
  (forall i, (i < k)%nat -> F64.np_less (nth i a 0) v = true) ->
  (forall i, (k <= i < length a)%nat -> F64.np_less (nth i a 0) v = false) ->
  F64.searchsorted a v = k.
Proof.
  intros Hk Hlow Hhigh. unfold F64.searchsorted.
  apply f64_binsearch_left_finds; auto; lia.
Qed.

End F64_Binsearch.

Lemma f64_searchsorted_from_length (a : list float) (mn mx : nat) (last : float)
  (keys : list float) :
  length (F64.searchsorted_from a mn mx last keys) = length keys.
Proof.
  revert mn mx last. induction keys as [|k keys IH]; intros mn mx last.
  - reflexivity.
  - cbn [F64.searchsorted_from length]. now rewrite IH.
Qed.

Lemma f64_searchsorted_keys_length (a : list float) (keys : list float) :
  length (F64.searchsorted_keys a keys) = length keys.
Proof.
  destruct keys as [|k keys]; [reflexivity|].
  unfold F64.searchsorted_keys. apply f64_searchsorted_from_length.
Qed.

Lemma f64_searchsorted_from_bound (a : list float) (mn mx : nat) (last : float)
  (keys : list float) :
  (mn <= length a)%nat ->
  Forall (fun r => (r <= length a)%nat)
         (F64.searchsorted_from a mn mx last keys).
Proof.
  revert mn mx last. induction keys as [|k keys IH]; intros mn mx last Hmn.
  - constructor.
  - cbn [F64.searchsorted_from].
    set (lo := if F64.np_less last k then mn else 0%nat).
    set (hi := if F64.np_less last k then length a
               else if (mx <? length a)%nat then S mx else length a).
    assert (Hlo : (lo <= hi)%nat /\ (hi <= length a)%nat).
    { unfold lo, hi. destruct (F64.np_less last k); [lia|].
      destruct (Nat.ltb_spec mx (length a)); lia. }
    pose proof (f64_binsearch_left_bounds a k (length a) lo hi (proj1 Hlo))
      as Hb.
    constructor; [lia|]. apply IH. lia.
Qed.

Lemma f64_searchsorted_keys_bound (a : list float) (keys : list float) :
  Forall (fun r => (r <= length a)%nat) (F64.searchsorted_keys a keys).
Proof.
  destruct keys as [|k keys]; [constructor|].
  unfold F64.searchsorted_keys. apply f64_searchsorted_from_bound. lia.
Qed.

(** ** Grids and their midpoints *)

Lemma f64_mid_points_cons (x y : float) (rest : list float) :
  F64.mid_points (x :: y :: rest)
  = (x + y) / 2 :: F64.mid_points (y :: rest).
Proof. reflexivity. Qed.

Lemma f64_mid_points_length (grid : list float) :
  length (F64.mid_points grid) = (length grid - 1)%nat.
Proof.
  induction grid as [|x [|y rest] IH]; try reflexivity.
  rewrite f64_mid_points_cons. simpl length in *. lia.
Qed.

Lemma f64_nearest_idx_keys_length (grid : list float) (v : list float) :
  length (F64.nearest_idx_keys grid v) = length v.
Proof. apply f64_searchsorted_keys_length. Qed.

Lemma f64_mid_points_nth (grid : list float) (i : nat) :
  (S i < length grid)%nat ->
  nth i (F64.mid_points grid) 0 = (nth i grid 0 + nth (S i) grid 0) / 2.
Proof.
  revert i. induction grid as [|x [|y rest] IH]; intros i Hi.
  - simpl in Hi. lia.
  - simpl in Hi. lia.
  - rewrite f64_mid_points_cons. destruct i as [|i]; [reflexivity|].
    change (nth i (F64.mid_points (y :: rest)) 0
            = (nth i (y :: rest) 0 + nth (S i) (y :: rest) 0) / 2).
    apply IH. simpl in Hi |- *. lia.
Qed.

Lemma midpoints_inside_nth (grid : list float) (i : nat) :
  midpoints_inside grid = true -> (S i < length grid)%nat ->
  (nth i grid 0 <? nth i (F64.mid_points grid) 0) = true
  /\ (nth i (F64.mid_points grid) 0 <? nth (S i) grid 0) = true.
Proof.
  revert i. induction grid as [|x [|y rest] IH]; intros i Hm Hi.
  - simpl in Hi. lia.
  - simpl in Hi. lia.
  - cbn [midpoints_inside] in Hm.
    apply andb_true_iff in Hm. destruct Hm as [Hm Hrest].
    apply andb_true_iff in Hm. destruct Hm as [H1 H2].
    rewrite f64_mid_points_cons. destruct i as [|i]; [now split|].
    change ((nth i (y :: rest) 0 <? nth i (F64.mid_points (y :: rest)) 0)
            = true
            /\ (nth i (F64.mid_points (y :: rest)) 0
                <? nth (S i) (y :: rest) 0) = true).
    apply IH; [exact Hrest|]. simpl in Hi |- *. lia.
Qed.

Lemma midpoints_inside_step (grid : list float) (i : nat) :
  midpoints_inside grid = true -> (S i < length grid)%nat ->
  (nth i grid 0 <? nth (S i) grid 0) = true.
Proof.
  intros Hm Hi. destruct (midpoints_inside_nth grid i Hm Hi) as [H1 H2].
  now apply ltb_trans with (nth i (F64.mid_points grid) 0).
Qed.

Lemma midpoints_inside_lt (grid : list float) (i j : nat) :
  midpoints_inside grid = true -> (i < j)%nat -> (j < length grid)%nat ->
  (nth i grid 0 <? nth j grid 0) = true.
Proof.
  intros Hm Hij. induction Hij as [|j Hij IH]; intro Hj.
  - now apply midpoints_inside_step.
  - apply ltb_trans with (nth j grid 0).
    + apply IH. lia.
    + now apply midpoints_inside_step.
Qed.

Lemma f64_np_less_ltb (x y : float) : (x <? y) = true -> F64.np_less x y = true.
Proof. intro H. unfold F64.np_less. now rewrite H. Qed.

Lemma f64_np_less_gtb (x y : float) : (y <? x) = true -> F64.np_less x y = false.
Proof.
  intro H. unfold F64.np_less.
  destruct (ltb_not_nan _ _ H) as [Hy _]. rewrite Hy.
  apply ltb_leb, leb_not_ltb in H. now rewrite H.
Qed.

(** ** The triplet arrays in binary64 *)

Ltac f64_slice_side :=
  rewrite ?length_app, ?f64_nearest_idx_keys_length, ?length_map,
    ?sa_rows_length, ?repeat_length;
  unfold num_actions; simpl length; lia.

Lemma f64_tiger_alloc_written (grid_size : nat) :
  F64.tiger_alloc grid_size = F64.written [] [] [] (grid_size * (num_actions + 1)).
Proof. reflexivity. Qed.

Lemma f64_tiger_listen_written (grid : list float) :
  F64.tiger_listen grid (F64.tiger_alloc (length grid))
  = Ok (F64.written (F64.listen_data grid) (listen_rows (length grid))
                (F64.listen_cols grid) (2 * length grid)).
Proof.
  rewrite f64_tiger_alloc_written. unfold F64.tiger_listen, F64.written.
  cbn [F64.data F64.row F64.col].
  rewrite (arange_step_rows 0) by (unfold num_actions; lia).
  rewrite (mapM_total _ F64.listen_update_TL) by reflexivity.
  rewrite (mapM_total _ F64.listen_update_TR) by reflexivity.
  repeat (rewrite set_slice_extends by f64_slice_side; cbn [bind]).
  unfold F64.listen_data, listen_rows, F64.listen_cols. cbn [app].
  rewrite !f64_nearest_idx_keys_length, !length_map, !sa_rows_length.
  replace (length grid * (num_actions + 1) - length grid - length grid)%nat
    with (2 * length grid)%nat by (unfold num_actions; lia).
  reflexivity.
Qed.

Lemma f64_tiger_open_written (grid_size h a k : nat) (d : list float) (r c : list nat) :
  (a < num_actions)%nat ->
  length d = ((a + 1) * grid_size)%nat ->
  length r = ((a + 1) * grid_size)%nat ->
  length c = ((a + 1) * grid_size)%nat ->
  (grid_size <= k)%nat ->
  F64.tiger_open grid_size h (F64.written d r c k) a
  = Ok (F64.written (d ++ repeat 1 grid_size) (r ++ sa_rows a grid_size)
                (c ++ repeat h grid_size) (k - grid_size)).
Proof.
  intros Ha Hd Hr Hc Hk. unfold F64.tiger_open, F64.written. cbn [F64.data F64.row F64.col].
  rewrite (arange_step_rows a) by exact Ha.
  rewrite set_slice_extends by f64_slice_side. cbn [bind].
  rewrite !(fill_slice_extends _ _ k grid_size) by lia.
  rewrite sa_rows_length. reflexivity.
Qed.

Lemma f64_listen_lengths (grid : list float) :
  length (F64.listen_data grid) = ((1 + 1) * length grid)%nat
  /\ length (listen_rows (length grid)) = ((1 + 1) * length grid)%nat
  /\ length (F64.listen_cols grid) = ((1 + 1) * length grid)%nat.
Proof.
  unfold F64.listen_data, listen_rows, F64.listen_cols.
  rewrite !length_app, !f64_nearest_idx_keys_length, !length_map,
    !sa_rows_length. lia.
Qed.

Lemma f64_tiger_triplets_written (grid : list float) (h : nat) :
  F64.prob_half_idx grid = Ok h ->
  F64.tiger_triplets grid
  = Ok (F64.written (F64.tiger_data grid) (tiger_rows (length grid))
                (F64.tiger_cols grid h) 0).
Proof.
  intro Hh. unfold F64.tiger_triplets.
  rewrite f64_tiger_listen_written, Hh. cbn [bind for_each].
  destruct (f64_listen_lengths grid) as [Hd [Hr Hc]].
  rewrite (f64_tiger_open_written (length grid) h 1)
    by (try assumption; unfold num_actions; lia).
  cbn [bind].
  rewrite (f64_tiger_open_written (length grid) h 2)
    by (rewrite ?length_app, ?repeat_length, ?sa_rows_length;
        unfold num_actions; lia).
  cbn [bind]. unfold F64.tiger_data, tiger_rows, F64.tiger_cols.
  replace (2 * length grid - length grid - length grid)%nat with 0%nat by lia.
  reflexivity.
Qed.

Lemma f64_tiger_triplets_empty : F64.tiger_triplets [] = Raise ValueError.
Proof. reflexivity. Qed.

Lemma f64_flat_map_reward_row_length (grid : list float) :
  length (flat_map F64.reward_row grid) = (length grid * num_actions)%nat.
Proof.
  induction grid as [|b grid IH]; [reflexivity|].
  simpl. rewrite IH. reflexivity.
Qed.

Lemma f64_tiger_R_closed (grid : list float) :
  F64.tiger_R grid = Ok (map Some (flat_map F64.reward_row grid)).
Proof.
  unfold F64.tiger_R, np_empty2, fill_column, set_column.
  rewrite map_repeat, !length_map, repeat_length, Nat.eqb_refl.
  cbn [bind].
  rewrite zip_with_repeat_map, length_map, Nat.eqb_refl. cbn [bind].
  rewrite zip_with_map_map.
  rewrite (map_ext _ (fun b => map Some (F64.reward_row b))) by reflexivity.
  unfold reshape_flat.
  rewrite <- map_map, <- concat_map, <- flat_map_concat_map.
  rewrite length_map, f64_flat_map_reward_row_length, Nat.eqb_refl.
  reflexivity.
Qed.

Lemma f64_tiger_cols_bound (grid : list float) (h : nat) :
  grid <> [] -> (h < length grid)%nat ->
  Forall (fun c => (c < length grid)%nat) (F64.tiger_cols grid h).
Proof.
  intros Hne Hh.
  assert (Hpos : (0 < length grid)%nat)
    by (destruct grid; [congruence|simpl; lia]).
  assert (Hn : forall l, Forall (fun c => (c < length grid)%nat)
                           (F64.nearest_idx_keys grid l)).
  { intro l. unfold F64.nearest_idx_keys.
    pose proof (f64_searchsorted_keys_bound (F64.mid_points grid) l) as Hb.
    rewrite f64_mid_points_length in Hb.
    eapply Forall_impl; [|exact Hb]. cbv beta. intros c Hc. lia. }
  assert (Hr : Forall (fun c => (c < length grid)%nat) (repeat h (length grid))).
  { apply Forall_forall. intros c Hc. apply repeat_spec in Hc. now subst c. }
  unfold F64.tiger_cols, F64.listen_cols.
  apply Forall_app; split; [apply Forall_app; split|exact Hr];
    [apply Forall_app; split|exact Hr]; apply Hn.
Qed.

Lemma f64_tiger_entries_combine (grid : list float) (h : nat) :
  combine (combine (tiger_rows (length grid)) (F64.tiger_cols grid h))
          (F64.tiger_data grid)
  = F64.tiger_entries grid h.
Proof.
  unfold tiger_rows, F64.tiger_cols, F64.tiger_data, listen_rows, F64.listen_cols,
    F64.listen_data, F64.tiger_entries, F64.listen_TL_block, F64.listen_TR_block,
    F64.open_block, F64.block.
  repeat (rewrite combine_app
            by (rewrite ?length_combine, ?length_app,
                  ?f64_nearest_idx_keys_length, ?length_map,
                  ?sa_rows_length, ?repeat_length; lia)).
  rewrite <- !app_assoc. reflexivity.
Qed.

Lemma f64_coo_matrix_written (d : list float) (r c : list nat) (m n : nat) :
  length r = length d -> length c = length d ->
  Forall (fun i => (i < m)%nat) r -> Forall (fun j => (j < n)%nat) c ->
  F64.coo_matrix (map Some d) (map Some r) (map Some c) m n
  = Ok (F64.mk_coo m n (combine (combine r c) d)).
Proof.
  intros Hr Hc Fr Fc. unfold F64.coo_matrix.
  rewrite !read_all_Some. cbn [bind].
  rewrite Hr, Hc, Nat.eqb_refl. cbn [andb negb].
  rewrite (forallb_Forall _ _ r (fun i H => proj2 (Nat.ltb_lt i m) H) Fr).
  rewrite (forallb_Forall _ _ c (fun j H => proj2 (Nat.ltb_lt j n) H) Fc).
  reflexivity.
Qed.

Lemma f64_tiger_lengths (grid : list float) (h : nat) :
  length (F64.tiger_data grid) = (4 * length grid)%nat
  /\ length (tiger_rows (length grid)) = (4 * length grid)%nat
  /\ length (F64.tiger_cols grid h) = (4 * length grid)%nat.
Proof.
  destruct (f64_listen_lengths grid) as [Hd [Hr Hc]].
  unfold F64.tiger_data, tiger_rows, F64.tiger_cols.
  rewrite !length_app, Hd, Hr, Hc, !repeat_length, !sa_rows_length. lia.
Qed.

Lemma f64_DiscreteDP_init_unit (R : list float) (Qm : F64.coo) (beta : float)
  (s a : list nat) :
  (0 <=? beta) = true -> (beta <=? 1) = true ->
  F64.DiscreteDP_init R Qm beta s a = Ok (F64.mk_DiscreteDP R Qm beta s a).
Proof.
  intros H0 H1. unfold F64.DiscreteDP_init. now rewrite H0, H1.
Qed.

Lemma f64_DiscreteDP_init_Ok (R : list float) (Qm : F64.coo) (beta : float)
  (s a : list nat) (m : F64.DiscreteDP) :
  F64.DiscreteDP_init R Qm beta s a = Ok m ->
  (0 <=? beta) = true /\ (beta <=? 1) = true
  /\ m = F64.mk_DiscreteDP R Qm beta s a.
Proof.
  unfold F64.DiscreteDP_init.
  destruct (0 <=? beta); [|discriminate].
  destruct (beta <=? 1); [|discriminate].
  cbn [andb]. intro H. injection H as <-. auto.
Qed.

Lemma f64_DiscreteDP_init_outside (R : list float) (Qm : F64.coo)
  (beta : float) (s a : list nat) :
  (0 <=? beta) = false \/ (beta <=? 1) = false ->
  F64.DiscreteDP_init R Qm beta s a = Raise ValueError.
Proof.
  intro H. unfold F64.DiscreteDP_init.
  destruct H as [-> | ->]; [reflexivity|].
  now rewrite andb_false_r.
Qed.

Lemma f64_tiger_mdp_reaches_init (grid : list float) (beta : float) :
  grid <> [] ->
  exists h,
    F64.prob_half_idx grid = Ok h /\ (h < length grid)%nat
    /\ F64.tiger_mdp grid beta
       = F64.DiscreteDP_init
           (flat_map F64.reward_row grid)
           (F64.sum_duplicates
              (F64.mk_coo (length grid * num_actions) (length grid)
                      (F64.tiger_entries grid h)))
           beta
           (np_repeat (arange (length grid)) num_actions)
           (np_tile (arange num_actions) (length grid)).
Proof.
  intros Hne.
  destruct (f64_prob_half_idx_spec grid Hne) as [h [Hh [Hlt _]]].
  exists h. split; [exact Hh|]. split; [exact Hlt|].
  unfold F64.tiger_mdp. rewrite f64_tiger_R_closed. cbn [bind].
  rewrite (f64_tiger_triplets_written grid h Hh). cbn [bind].
  unfold F64.written. cbn [F64.data F64.row F64.col repeat]. rewrite !app_nil_r.
  destruct (f64_tiger_lengths grid h) as [Hd [Hr Hc]].
  rewrite f64_coo_matrix_written.
  - cbn [bind]. rewrite read_all_Some. cbn [bind].
    now rewrite f64_tiger_entries_combine.
  - lia.
  - lia.
  - apply tiger_rows_bound.
  - now apply f64_tiger_cols_bound.
Qed.

Lemma f64_tiger_mdp_closed (grid : list float) (beta : float) :
  grid <> [] -> (0 <=? beta) = true -> (beta <=? 1) = true ->
  exists h,
    F64.prob_half_idx grid = Ok h /\ (h < length grid)%nat
    /\ first_min (map F64.half_distance grid) h
    /\ F64.tiger_mdp grid beta
       = Ok (F64.mk_DiscreteDP
               (flat_map F64.reward_row grid)
               (F64.sum_duplicates
                  (F64.mk_coo (length grid * num_actions) (length grid)
                              (F64.tiger_entries grid h)))
               beta
               (np_repeat (arange (length grid)) num_actions)
               (np_tile (arange num_actions) (length grid))).
Proof.
  intros Hne H0 H1.
  destruct (f64_tiger_mdp_reaches_init grid beta Hne) as [h [Hh [Hlt Hm]]].
  destruct (f64_prob_half_idx_spec grid Hne) as [h' [Hh' [_ Hmin]]].
  assert (h' = h) by congruence. subst h'.
  exists h. split; [exact Hh|]. split; [exact Hlt|]. split; [exact Hmin|].
  rewrite Hm. now apply f64_DiscreteDP_init_unit.
Qed.

Lemma f64_tiger_mdp_empty (beta : float) : F64.tiger_mdp [] beta = Raise ValueError.
Proof. reflexivity. Qed.

Lemma f64_filter_block_absent (r : nat) (rows cols : list nat) (vals : list float) :
  ~ In r rows -> filter (F64.in_row r) (F64.block rows cols vals) = [].
Proof.
  unfold F64.block. revert cols vals.
  induction rows as [|r0 rows IH]; intros cols vals Hn; [reflexivity|].
  destruct cols as [|c cols]; [reflexivity|].
  destruct vals as [|x vals]; [reflexivity|].
  simpl. unfold F64.in_row at 1. cbn [F64.entry_row fst].
  destruct (Nat.eqb_spec r0 r) as [->|Hne].
  - exfalso. apply Hn. now left.
  - apply IH. intro H. apply Hn. now right.
Qed.

Lemma f64_filter_block_unique (rows cols : list nat) (vals : list float)
  (i r c : nat) (x : float) :
  NoDup rows ->
  nth_error rows i = Some r -> nth_error cols i = Some c ->
  nth_error vals i = Some x ->
  filter (F64.in_row r) (F64.block rows cols vals) = [(r, c, x)].
Proof.
  revert cols vals i.
  induction rows as [|r0 rows IH]; intros cols vals i Hnd Hr Hc Hx.
  - destruct i; discriminate Hr.
  - destruct cols as [|c0 cols]; [destruct i; discriminate Hc|].
    destruct vals as [|x0 vals]; [destruct i; discriminate Hx|].
    inversion Hnd as [|? ? Hnotin Hnd']; subst.
    change (F64.block (r0 :: rows) (c0 :: cols) (x0 :: vals))
      with ((r0, c0, x0) :: F64.block rows cols vals).
    cbn [filter]. unfold F64.in_row at 1. cbn [F64.entry_row fst].
    destruct i as [|i].
    + injection Hr as ->. injection Hc as ->. injection Hx as ->.
      rewrite Nat.eqb_refl. f_equal. now apply f64_filter_block_absent.
    + simpl in Hr, Hc, Hx.
      destruct (Nat.eqb_spec r0 r) as [->|Hne].
      * exfalso. apply Hnotin. now apply nth_error_In with i.
      * now apply IH with i.
Qed.


Lemma f64_tiger_entries_listen_row (grid : list float) (h g : nat) (b : float) (cL cR : nat) :
  nth_error grid g = Some b ->
  nth_error (F64.nearest_idx_keys grid (map F64.listen_update_TL grid)) g = Some cL ->
  nth_error (F64.nearest_idx_keys grid (map F64.listen_update_TR grid)) g = Some cR ->
  filter (F64.in_row (sa_index g 0)) (F64.tiger_entries grid h)
  = [(sa_index g 0, cL, F64.prob_TL b F64.noise_prob_default F64.noise_prob_default);
     (sa_index g 0, cR, F64.prob_TR b F64.noise_prob_default F64.noise_prob_default)].
Proof.
  intros Hb HcL HcR.
  assert (Hg : (g < length grid)%nat)
    by (apply nth_error_Some; rewrite Hb; discriminate).
  unfold F64.tiger_entries, F64.listen_TL_block, F64.listen_TR_block, F64.open_block.
  rewrite !filter_app.
  rewrite (f64_filter_block_unique _ _ _ g (sa_index g 0) cL
             (F64.prob_TL b F64.noise_prob_default F64.noise_prob_default)).
  2: apply sa_rows_NoDup.
  2: now apply sa_rows_nth.
  2: exact HcL.
  2: now rewrite nth_error_map, Hb.
  rewrite (f64_filter_block_unique _ _ _ g (sa_index g 0) cR
             (F64.prob_TR b F64.noise_prob_default F64.noise_prob_default)).
  2: apply sa_rows_NoDup.
  2: now apply sa_rows_nth.
  2: exact HcR.
  2: now rewrite nth_error_map, Hb.
  rewrite !f64_filter_block_absent
    by (apply sa_rows_other_action; unfold num_actions; lia).
  reflexivity.
Qed.

Lemma f64_tiger_entries_open_row (grid : list float) (h g a : nat) :
  (g < length grid)%nat -> a = 1%nat \/ a = 2%nat ->
  filter (F64.in_row (sa_index g a)) (F64.tiger_entries grid h)
  = [(sa_index g a, h, 1)].
Proof.
  intros Hg Ha.
  unfold F64.tiger_entries, F64.listen_TL_block, F64.listen_TR_block, F64.open_block.
  rewrite !filter_app.
  rewrite !(f64_filter_block_absent _ (sa_rows 0 _))
    by (apply sa_rows_other_action; unfold num_actions; lia).
  destruct Ha as [-> | ->].
  - rewrite (f64_filter_block_unique _ _ _ g (sa_index g 1) h 1).
    2: apply sa_rows_NoDup.
    2: now apply sa_rows_nth.
    2: now apply nth_error_repeat.
    2: now apply nth_error_repeat.
    rewrite f64_filter_block_absent
      by (apply sa_rows_other_action; unfold num_actions; lia).
    reflexivity.
  - rewrite (f64_filter_block_absent _ (sa_rows 1 _))
      by (apply sa_rows_other_action; unfold num_actions; lia).
    rewrite (f64_filter_block_unique _ _ _ g (sa_index g 2) h 1).
    2: apply sa_rows_NoDup.
    2: now apply sa_rows_nth.
    2: now apply nth_error_repeat.
    2: now apply nth_error_repeat.
    reflexivity.
Qed.

(** ** Sorting and merging triplets *)

Ltac key_solve :=
  unfold F64.key_lt, F64.same_key, F64.in_row, F64.run_entry in *;
  cbn [F64.entry_row F64.entry_col fst snd] in *;
  rewrite ?orb_true_iff, ?andb_true_iff, ?orb_false_iff, ?andb_false_iff,
    ?Nat.ltb_lt, ?Nat.ltb_ge, ?Nat.eqb_eq, ?Nat.eqb_neq in *;
  lia.

Lemma key_le_trans (x y z : F64.entry) :
  F64.key_lt y x = false -> F64.key_lt z y = false -> F64.key_lt z x = false.
Proof. intros H1 H2. key_solve. Qed.



Lemma insert_entry_In (e y : F64.entry) (l : list F64.entry) :
  In y (F64.insert_entry e l) <-> y = e \/ In y l.
Proof.
  induction l as [|x l IH]; cbn [F64.insert_entry].
  - simpl. intuition.
  - destruct (F64.key_lt x e); simpl; rewrite ?IH; intuition.
Qed.

Lemma insert_entry_sorted (e : F64.entry) (l : list F64.entry) :
  key_sorted l -> key_sorted (F64.insert_entry e l).
Proof.
  induction l as [|x l IH]; intro Hs.
  - simpl. split; [constructor|exact I].
  - cbn [F64.insert_entry]. destruct Hs as [Hx Hs].
    destruct (F64.key_lt x e) eqn:E.
    + split; [|now apply IH].
      apply Forall_forall. intros y Hy. apply insert_entry_In in Hy.
      destruct Hy as [->|Hy].
      * key_solve.
      * rewrite Forall_forall in Hx. now apply Hx.
    + split; [|split; assumption].
      constructor; [exact E|].
      apply Forall_forall. intros y Hy. rewrite Forall_forall in Hx.
      apply key_le_trans with x; [exact E|now apply Hx].
Qed.

Lemma lexsort_sorted (es : list F64.entry) : key_sorted (F64.lexsort es).
Proof.
  induction es as [|e es IH]; [exact I|].
  cbn [F64.lexsort fold_right]. now apply insert_entry_sorted.
Qed.

Lemma insert_entry_first (e : F64.entry) (l : list F64.entry) :
  Forall (fun y => F64.key_lt y e = false) l -> F64.insert_entry e l = e :: l.
Proof.
  destruct l as [|x l]; [reflexivity|]. intro H.
  inversion H as [|? ? Hx _]; subst. cbn [F64.insert_entry]. now rewrite Hx.
Qed.

Lemma filter_insert_entry (p : F64.entry -> bool) (e : F64.entry)
  (l : list F64.entry) :
  key_sorted l ->
  filter p (F64.insert_entry e l)
  = if p e then F64.insert_entry e (filter p l) else filter p l.
Proof.
  induction l as [|x l IH]; intro Hs.
  - simpl. destruct (p e); reflexivity.
  - destruct Hs as [Hx Hs]. cbn [F64.insert_entry].
    destruct (F64.key_lt x e) eqn:E.
    + cbn [filter]. rewrite (IH Hs).
      destruct (p x), (p e); try reflexivity.
      cbn [F64.insert_entry]. now rewrite E.
    + cbn [filter]. destruct (p e) eqn:Pe; [|reflexivity].
      symmetry. apply insert_entry_first.
      apply Forall_forall. intros y Hy.
      assert (Hin : In y (x :: l)).
      { destruct (p x); [|right; now apply filter_In in Hy].
        destruct Hy as [<-|Hy]; [now left|right; now apply filter_In in Hy]. }
      destruct Hin as [<-|Hin]; [exact E|].
      rewrite Forall_forall in Hx.
      apply key_le_trans with x; [exact E|now apply Hx].
Qed.

Lemma filter_lexsort (p : F64.entry -> bool) (es : list F64.entry) :
  filter p (F64.lexsort es) = F64.lexsort (filter p es).
Proof.
  induction es as [|e es IH]; [reflexivity|].
  cbn [F64.lexsort fold_right filter].
  rewrite filter_insert_entry by apply lexsort_sorted.
  fold (F64.lexsort es). rewrite IH.
  destruct (p e); reflexivity.
Qed.

Lemma in_row_run_entry (r : nat) (first : F64.entry) (others : list float) :
  F64.in_row r (F64.run_entry first others) = F64.in_row r first.
Proof. reflexivity. Qed.

Lemma filter_row_above (r : nat) (x : F64.entry) (l : list F64.entry) :
  (r < F64.entry_row x)%nat ->
  Forall (fun y => F64.key_lt y x = false) l ->
  filter (F64.in_row r) l = [].
Proof.
  intros Hr Hl. induction l as [|y l IH]; [reflexivity|].
  inversion Hl as [|? ? Hy Hl']; subst. cbn [filter].
  assert (E : F64.in_row r y = false) by key_solve.
  rewrite E. now apply IH.
Qed.

Lemma filter_reduce_runs (r : nat) (l : list F64.entry) :
  forall (first : F64.entry) (others : list float),
  key_sorted (first :: l) ->
  filter (F64.in_row r) (F64.reduce_runs first others l)
  = if F64.in_row r first
    then F64.reduce_runs first others (filter (F64.in_row r) l)
    else F64.sum_runs (filter (F64.in_row r) l).
Proof.
  induction l as [|x l IH]; intros first others Hs.
  - cbn [F64.reduce_runs filter]. rewrite in_row_run_entry.
    destruct (F64.in_row r first); reflexivity.
  - destruct Hs as [Hfirst [Hx Hs]].
    inversion Hfirst as [|? ? Hfx Hfl]; subst.
    cbn [F64.reduce_runs].
    destruct (F64.same_key first x) eqn:K.
    + rewrite IH by (split; assumption).
      assert (E : F64.in_row r x = F64.in_row r first) by
        (unfold F64.in_row; unfold F64.same_key in K;
         apply andb_true_iff in K; destruct K as [K _];
         apply Nat.eqb_eq in K; now rewrite K).
      cbn [filter]. rewrite E.
      destruct (F64.in_row r first); [|reflexivity].
      cbn [F64.reduce_runs]. now rewrite K.
    + cbn [filter]. rewrite in_row_run_entry.
      rewrite IH by (split; assumption).
      destruct (F64.in_row r first) eqn:Rf, (F64.in_row r x) eqn:Rx.
      * cbn [F64.reduce_runs]. now rewrite K.
      * assert (Hempty : filter (F64.in_row r) l = []).
        { apply filter_row_above with x; [key_solve|exact Hx]. }
        rewrite Hempty. reflexivity.
      * reflexivity.
      * reflexivity.
Qed.

Lemma filter_sum_runs (r : nat) (l : list F64.entry) :
  key_sorted l ->
  filter (F64.in_row r) (F64.sum_runs l)
  = F64.sum_runs (filter (F64.in_row r) l).
Proof.
  destruct l as [|first l]; [reflexivity|]. intro Hs.
  cbn [F64.sum_runs]. rewrite filter_reduce_runs by exact Hs.
  cbn [filter]. destruct (F64.in_row r first); reflexivity.
Qed.

(** A row of the merged matrix is the row of the triplets, sorted and
    merged. *)
Lemma f64_coo_row_sum_duplicates (M : F64.coo) (r : nat) :
  F64.coo_row (F64.sum_duplicates M) r
  = F64.sum_runs (F64.lexsort (F64.coo_row M r)).
Proof.
  unfold F64.coo_row, F64.sum_duplicates. cbn [F64.coo_entries].
  rewrite filter_sum_runs by apply lexsort_sorted.
  now rewrite filter_lexsort.
Qed.




(** ** Rows of the merged matrix *)

Lemma f64_merged_listen_row (grid : list float) (h g : nat) (b : float)
  (cL cR : nat) :
  nth_error grid g = Some b ->
  nth_error (F64.nearest_idx_keys grid (map F64.listen_update_TL grid)) g
  = Some cL ->
  nth_error (F64.nearest_idx_keys grid (map F64.listen_update_TR grid)) g
  = Some cR ->
  F64.coo_row (F64.sum_duplicates
                 (F64.mk_coo (length grid * num_actions) (length grid)
                             (F64.tiger_entries grid h)))
              (sa_index g 0)
  = if (cL =? cR)%nat
    then [(sa_index g 0, cL, listen_sum b)]
    else if (cR <? cL)%nat
         then [(sa_index g 0, cR,
                F64.prob_TR b F64.noise_prob_default F64.noise_prob_default);
               (sa_index g 0, cL,
                F64.prob_TL b F64.noise_prob_default F64.noise_prob_default)]
         else [(sa_index g 0, cL,
                F64.prob_TL b F64.noise_prob_default F64.noise_prob_default);
               (sa_index g 0, cR,
                F64.prob_TR b F64.noise_prob_default F64.noise_prob_default)].
Proof.
  intros Hb HcL HcR. rewrite f64_coo_row_sum_duplicates.
  unfold F64.coo_row. cbn [F64.coo_entries].
  rewrite (f64_tiger_entries_listen_row grid h g b cL cR Hb HcL HcR).
  cbn [F64.lexsort fold_right F64.insert_entry].
  unfold F64.key_lt. cbn [F64.entry_row F64.entry_col fst snd].
  rewrite Nat.ltb_irrefl, Nat.eqb_refl. cbn [orb andb].
  destruct (Nat.eqb_spec cL cR) as [->|Hne].
  - rewrite Nat.ltb_irrefl. cbn [F64.sum_runs F64.reduce_runs].
    unfold F64.same_key. cbn [F64.entry_row F64.entry_col fst snd].
    rewrite !Nat.eqb_refl. cbn [andb app F64.reduce_runs].
    unfold F64.run_entry. cbn [F64.entry_row F64.entry_col F64.entry_val
                               fst snd fold_left].
    now rewrite neg_zero_add.
  - destruct (Nat.ltb_spec cR cL) as [Hlt|Hge];
      cbn [F64.sum_runs F64.reduce_runs];
      unfold F64.same_key; cbn [F64.entry_row F64.entry_col fst snd];
      rewrite Nat.eqb_refl; cbn [andb].
    + destruct (Nat.eqb_spec cR cL); [lia|]. reflexivity.
    + destruct (Nat.eqb_spec cL cR); [lia|]. reflexivity.
Qed.

Lemma f64_merged_open_row (grid : list float) (h g a : nat) :
  (g < length grid)%nat -> a = 1%nat \/ a = 2%nat ->
  F64.coo_row (F64.sum_duplicates
                 (F64.mk_coo (length grid * num_actions) (length grid)
                             (F64.tiger_entries grid h)))
              (sa_index g a)
  = [(sa_index g a, h, 1)].
Proof.
  intros Hg Ha. rewrite f64_coo_row_sum_duplicates.
  unfold F64.coo_row. cbn [F64.coo_entries].
  now rewrite (f64_tiger_entries_open_row grid h g a Hg Ha).
Qed.


Lemma f64_nth_map (f : float -> float) (l : list float) (j : nat) :
  (j < length l)%nat -> nth j (map f l) 0 = f (nth j l 0).
Proof.
  intro H. rewrite (nth_indep _ 0 (f 0)) by (rewrite length_map; exact H).
  apply map_nth.
Qed.


(** ** The notebook's grid *)




Lemma notebook_grid_midpoints : midpoints_inside notebook_grid = true.
Proof. vm_compute. reflexivity. Qed.




(** ** [np.linspace] *)






(** ** The search over an array of keys *)

Lemma ltb_false_leb (x y : float) :
  is_nan x = false -> is_nan y = false ->
  (x <? y) = false -> (y <=? x) = true.
Proof.
  intros Hx Hy H. destruct (y <=? x) eqn:E; [reflexivity|].
  apply leb_total in E; try assumption. congruence.
Qed.

Lemma f64_np_less_not_nan (x v : float) :
  F64.np_less x v = true -> is_nan x = false.
Proof.
  unfold F64.np_less. intro H. apply orb_true_iff in H.
  destruct H as [H|H].
  - now apply ltb_not_nan in H.
  - apply andb_true_iff in H. destruct H as [_ H].
    now apply negb_true_iff in H.
Qed.

Lemma f64_np_less_key_up (x u v : float) :
  F64.np_less u v = true -> F64.np_less x u = true -> F64.np_less x v = true.
Proof.
  intros Huv Hxu. pose proof (f64_np_less_not_nan x u Hxu) as Hx.
  pose proof (f64_np_less_not_nan u v Huv) as Hu.
  unfold F64.np_less in *. rewrite Hx in *. rewrite Hu in *.
  destruct (is_nan v) eqn:Hv; [apply orb_true_r|].
  destruct (x <? u) eqn:Exu; [|discriminate Hxu].
  destruct (u <? v) eqn:Euv; [|discriminate Huv].
  now rewrite (ltb_trans x u v Exu Euv).
Qed.

Lemma f64_np_less_key_down (x u v : float) :
  F64.np_less u v = false -> F64.np_less x v = true -> F64.np_less x u = true.
Proof.
  intros Huv Hxv. pose proof (f64_np_less_not_nan x v Hxv) as Hx.
  unfold F64.np_less in *. rewrite Hx in *.
  destruct (is_nan u) eqn:Hu; [apply orb_true_r|].
  destruct (u <? v) eqn:Euv; [discriminate Huv|].
  destruct (is_nan v) eqn:Hv; [discriminate Huv|].
  destruct (x <? v) eqn:Exv; [|discriminate Hxv].
  rewrite (ltb_leb_trans x v u Exv); [reflexivity|].
  now apply ltb_false_leb.
Qed.

Section F64_Sorted.

Variable a : list float.
Hypothesis a_increasing :
  forall i j, (i < j)%nat -> (j < length a)%nat ->
    (nth i a 0 <? nth j a 0) = true.

Lemma f64_np_less_down_closed (v : float) (i j : nat) :
  (i < j)%nat -> (j < length a)%nat ->
  F64.np_less (nth j a 0) v = true -> F64.np_less (nth i a 0) v = true.
Proof.
  intros Hij Hj H. pose proof (a_increasing i j Hij Hj) as Hlt.
  destruct (ltb_not_nan _ _ Hlt) as [Hi _].
  unfold F64.np_less in *. rewrite Hi. cbn [negb]. rewrite andb_true_r.
  apply orb_true_iff in H. destruct H as [H|H].
  - apply orb_true_iff. left. now apply ltb_trans with (nth j a 0).
  - apply andb_true_iff in H. destruct H as [H _]. rewrite H.
    apply orb_true_r.
Qed.

(** On a sorted array the search ends at the index that splits the array
    into the elements below the key and the others. *)
Lemma f64_binsearch_left_split (v : float) (fuel : nat) :
  forall lo hi,
  (lo <= hi)%nat -> (hi <= length a)%nat -> (hi - lo <= fuel)%nat ->
  (forall i, (i < lo)%nat -> F64.np_less (nth i a 0) v = true) ->
  (forall i, (hi <= i < length a)%nat -> F64.np_less (nth i a 0) v = false) ->
  (forall i, (i < F64.binsearch_left fuel a v lo hi)%nat ->
     F64.np_less (nth i a 0) v = true)
  /\ (forall i, (F64.binsearch_left fuel a v lo hi <= i < length a)%nat ->
        F64.np_less (nth i a 0) v = false).
Proof.
  induction fuel as [|fuel IH]; intros lo hi Hle Hhi Hf Hlow Hhigh.
  - cbn [F64.binsearch_left]. split; [exact Hlow|].
    intros i Hi. apply Hhigh. lia.
  - rewrite f64_binsearch_left_S.
    destruct (Nat.ltb_spec lo hi) as [Hlt|Hge].
    + pose proof (half_below lo hi Hlt) as Hm.
      destruct (F64.np_less (nth (lo + (hi - lo) / 2) a 0) v) eqn:E.
      * apply IH; try lia; [|exact Hhigh].
        intros i Hi.
        destruct (Nat.eq_dec i (lo + (hi - lo) / 2)) as [->|Hne];
          [exact E|].
        apply f64_np_less_down_closed with (lo + (hi - lo) / 2)%nat;
          [lia|lia|exact E].
      * apply IH; try lia; [exact Hlow|].
        intros i Hi.
        destruct (Nat.eq_dec i (lo + (hi - lo) / 2)) as [->|Hne];
          [exact E|].
        destruct (F64.np_less (nth i a 0) v) eqn:Ei; [|reflexivity].
        rewrite (f64_np_less_down_closed v (lo + (hi - lo) / 2) i) in E;
          [discriminate E|lia|lia|exact Ei].
    + split; [exact Hlow|]. intros i Hi. apply Hhigh. lia.
Qed.

Lemma f64_searchsorted_split (v : float) :
  (F64.searchsorted a v <= length a)%nat
  /\ (forall i, (i < F64.searchsorted a v)%nat ->
        F64.np_less (nth i a 0) v = true)
  /\ (forall i, (F64.searchsorted a v <= i < length a)%nat ->
        F64.np_less (nth i a 0) v = false).
Proof.
  unfold F64.searchsorted. split.
  - pose proof (f64_binsearch_left_bounds a v (length a) 0 (length a)). lia.
  - apply f64_binsearch_left_split; try lia; intros i Hi; lia.
Qed.

Lemma f64_searchsorted_key_up (u v : float) :
  F64.np_less u v = true ->
  (F64.searchsorted a u <= F64.searchsorted a v)%nat.
Proof.
  intro Huv.
  destruct (f64_searchsorted_split u) as [Hu [Hu1 _]].
  destruct (f64_searchsorted_split v) as [Hv [_ Hv2]].
  destruct (Nat.le_gt_cases (F64.searchsorted a u) (F64.searchsorted a v))
    as [H|H]; [exact H|exfalso].
  specialize (Hu1 (F64.searchsorted a v) H).
  pose proof (f64_np_less_key_up _ u v Huv Hu1) as E.
  rewrite Hv2 in E by lia. discriminate E.
Qed.

Lemma f64_searchsorted_key_down (u v : float) :
  F64.np_less u v = false ->
  (F64.searchsorted a v <= F64.searchsorted a u)%nat.
Proof.
  intro Huv.
  destruct (f64_searchsorted_split u) as [Hu [_ Hu2]].
  destruct (f64_searchsorted_split v) as [Hv [Hv1 _]].
  destruct (Nat.le_gt_cases (F64.searchsorted a v) (F64.searchsorted a u))
    as [H|H]; [exact H|exfalso].
  specialize (Hv1 (F64.searchsorted a u) H).
  pose proof (f64_np_less_key_down _ u v Huv Hv1) as E.
  rewrite Hu2 in E by lia. discriminate E.
Qed.

Lemma f64_searchsorted_from_sorted (keys : list float) :
  forall mn mx last,
    (mn <= F64.searchsorted a last <= mx)%nat -> (mx <= length a)%nat ->
    F64.searchsorted_from a mn mx last keys = map (F64.searchsorted a) keys.
Proof.
  induction keys as [|k keys IH]; intros mn mx last Hst Hmx.
  - reflexivity.
  - cbn [F64.searchsorted_from map].
    destruct (f64_searchsorted_split k) as [Hk [Hk1 Hk2]].
    assert (Hr : F64.binsearch_left (length a) a k
                   (if F64.np_less last k then mn else 0%nat)
                   (if F64.np_less last k then length a
                    else if (mx <? length a)%nat then S mx else length a)
                 = F64.searchsorted a k).
    { apply f64_binsearch_left_finds; try assumption.
      - destruct (F64.np_less last k) eqn:L.
        + pose proof (f64_searchsorted_key_up last k L). lia.
        + pose proof (f64_searchsorted_key_down last k L).
          destruct (Nat.ltb_spec mx (length a)); lia.
      - destruct (F64.np_less last k); [lia|].
        destruct (Nat.ltb_spec mx (length a)); lia.
      - destruct (F64.np_less last k); [lia|].
        destruct (Nat.ltb_spec mx (length a)); lia. }
    rewrite Hr. f_equal. apply IH; lia.
Qed.

Lemma f64_searchsorted_keys_sorted (keys : list float) :
  F64.searchsorted_keys a keys = map (F64.searchsorted a) keys.
Proof.
  destruct keys as [|k keys]; [reflexivity|].
  unfold F64.searchsorted_keys. apply f64_searchsorted_from_sorted.
  - destruct (f64_searchsorted_split k) as [Hk _]. lia.
  - lia.
Qed.

End F64_Sorted.

Lemma midpoints_inside_sorted (grid : list float) (i j : nat) :
  midpoints_inside grid = true ->
  (i < j)%nat -> (j < length (F64.mid_points grid))%nat ->
  (nth i (F64.mid_points grid) 0 <? nth j (F64.mid_points grid) 0) = true.
Proof.
  intros Hm Hij Hj. rewrite f64_mid_points_length in Hj.
  destruct (midpoints_inside_nth grid i Hm) as [_ H1]; [lia|].
  destruct (midpoints_inside_nth grid j Hm) as [H2 _]; [lia|].
  apply ltb_trans with (nth j grid 0); [|exact H2].
  destruct (Nat.eq_dec (S i) j) as [<-|Hne]; [exact H1|].
  apply ltb_trans with (nth (S i) grid 0); [exact H1|].
  apply midpoints_inside_lt; [exact Hm|lia|lia].
Qed.

Lemma f64_nearest_idx_keys_inside (grid v : list float) :
  midpoints_inside grid = true ->
  F64.nearest_idx_keys grid v = map (F64.nearest_idx grid) v.
Proof.
  intro Hm. unfold F64.nearest_idx_keys, F64.nearest_idx.
  apply f64_searchsorted_keys_sorted.
  intros i j. now apply midpoints_inside_sorted.
Qed.

Lemma f64_nearest_idx_grid_point (grid : list float) (g : nat) :
  midpoints_inside grid = true -> (g < length grid)%nat ->
  F64.nearest_idx grid (nth g grid 0) = g.
Proof.
  intros Hm Hg. unfold F64.nearest_idx.
  apply f64_searchsorted_finds.
  - rewrite f64_mid_points_length. lia.
  - intros i Hi. apply f64_np_less_ltb.
    destruct (midpoints_inside_nth grid i Hm) as [_ H2]; [lia|].
    destruct (Nat.eq_dec (S i) g) as [<-|Hne]; [exact H2|].
    apply ltb_trans with (nth (S i) grid 0); [exact H2|].
    apply midpoints_inside_lt; [exact Hm|lia|exact Hg].
  - intros i [Hi1 Hi2]. rewrite f64_mid_points_length in Hi2.
    apply f64_np_less_gtb.
    destruct (midpoints_inside_nth grid i Hm) as [H1 _]; [lia|].
    destruct (Nat.eq_dec g i) as [->|Hne]; [exact H1|].
    apply ltb_trans with (nth i grid 0); [|exact H1].
    apply midpoints_inside_lt; [exact Hm|lia|lia].
Qed.

(** [np.searchsorted] over an array of keys keeps the bounds of the
    previous key's search.  On a grid whose computed midpoints lie strictly
    between their grid values this changes nothing: every value gets the
    index [nearest_idx] gives it alone, whatever the order of the values.
    On an unsorted grid the two can differ: on [0.25, 0.5, 0.75, 1, 0] the
    targets [tiger_mdp] writes for the TR updates are 2, 4, 4, 4, 0, where
    separate searches give 2, 2, 4, 4, 0. *)
Theorem nearest_idx_keys_each :
  (forall (grid v : list float),
     midpoints_inside grid = true ->
     F64.nearest_idx_keys grid v = map (F64.nearest_idx grid) v)
  /\ F64.nearest_idx_keys [0x1p-2; 0x1p-1; 0x1.8p-1; 1; 0]
       (map F64.listen_update_TR [0x1p-2; 0x1p-1; 0x1.8p-1; 1; 0])
     = [2%nat; 4%nat; 4%nat; 4%nat; 0%nat]
  /\ map (F64.nearest_idx [0x1p-2; 0x1p-1; 0x1.8p-1; 1; 0])
         (map F64.listen_update_TR [0x1p-2; 0x1p-1; 0x1.8p-1; 1; 0])
     = [2%nat; 2%nat; 4%nat; 4%nat; 0%nat].
Proof.
  split; [|split; reflexivity].
  intros grid v Hm. now apply f64_nearest_idx_keys_inside.
Qed.

Lemma nearest_idx_keys_each_witness :
  F64.nearest_idx_keys [0; 0x1p-2; 0x1p-1; 0x1.8p-1; 1]
    [0x1.8p-1; 0x1p-3; nan; 0x1p-1]
  = map (F64.nearest_idx [0; 0x1p-2; 0x1p-1; 0x1.8p-1; 1])
        [0x1.8p-1; 0x1p-3; nan; 0x1p-1].
Proof.
  apply (proj1 nearest_idx_keys_each
           [0; 0x1p-2; 0x1p-1; 0x1.8p-1; 1]
           [0x1.8p-1; 0x1p-3; nan; 0x1p-1]).
  reflexivity.
Defined.

(** Certainty stays under Listen.  On a grid whose computed midpoints lie
    strictly between their grid values, at a grid point whose belief is
    exactly 0 or exactly 1 both updated beliefs are that belief again and
    resolve to the point itself: the row of [(g, Listen)] is the single
    entry that leads back to [g], with value exactly 1. *)
Theorem listen_certain_belief_row (grid : list float) (beta : float) (g : nat) :
  (0 <=? beta) = true -> (beta <=? 1) = true ->
  midpoints_inside grid = true -> (g < length grid)%nat ->
  nth g grid 0 = 0 \/ nth g grid 0 = 1 ->
  exists m,
    F64.tiger_mdp grid beta = Ok m
    /\ F64.listen_update_TL (nth g grid 0) = nth g grid 0
    /\ F64.listen_update_TR (nth g grid 0) = nth g grid 0
    /\ F64.coo_row (F64.ddp_Q m) (sa_index g 0) = [(sa_index g 0, g, 1)].
Proof.
  intros H0 H1 Hm Hg Hb.
  assert (Hne : grid <> []) by (intros ->; simpl in Hg; lia).
  destruct (f64_tiger_mdp_closed grid beta Hne H0 H1) as [h [_ [_ [_ HM]]]].
  eexists. split; [exact HM|]. cbn [F64.ddp_Q].
  assert (Hnth : nth_error grid g = Some (nth g grid 0))
    by now apply nth_error_nth'.
  assert (HL : F64.listen_update_TL (nth g grid 0) = nth g grid 0)
    by (destruct Hb as [-> | ->]; reflexivity).
  assert (HR : F64.listen_update_TR (nth g grid 0) = nth g grid 0)
    by (destruct Hb as [-> | ->]; reflexivity).
  split; [exact HL|]. split; [exact HR|].
  rewrite (f64_merged_listen_row grid h g (nth g grid 0) g g Hnth).
  - rewrite Nat.eqb_refl. f_equal. f_equal.
    destruct Hb as [-> | ->]; reflexivity.
  - rewrite f64_nearest_idx_keys_inside by exact Hm.
    rewrite !nth_error_map, Hnth. cbn [option_map]. rewrite HL.
    now rewrite f64_nearest_idx_grid_point.
  - rewrite f64_nearest_idx_keys_inside by exact Hm.
    rewrite !nth_error_map, Hnth. cbn [option_map]. rewrite HR.
    now rewrite f64_nearest_idx_grid_point.
Qed.

Lemma listen_certain_belief_row_witness :
  exists m,
    F64.tiger_mdp [0; 0x1p-2; 0x1p-1; 0x1.8p-1; 1] 0x1.e666666666666p-1 = Ok m
    /\ F64.coo_row (F64.ddp_Q m) (sa_index 4 0) = [(sa_index 4 0, 4%nat, 1)].
Proof.
  destruct (listen_certain_belief_row
              [0; 0x1p-2; 0x1p-1; 0x1.8p-1; 1] 0x1.e666666666666p-1 4%nat)
    as [m [Hm [_ [_ Hrow]]]].
  - reflexivity.
  - reflexivity.
  - reflexivity.
  - simpl. lia.
  - right. reflexivity.
  - exists m. split; [exact Hm|exact Hrow].
Defined.

(** ** The observation probabilities in binary64 *)




(** ** Grid points and their nearest index in binary64 *)

(** C5, counterexample.  On the strictly increasing grid
    [0, 1 - 2^-53, 1] the last midpoint is rounded to 1, and the grid point
    1.0 (index 2) resolves to index 1. *)
Lemma nearest_idx_grid_point_rounded :
  increasing [0; 0x1.fffffffffffffp-1; 1] = true
  /\ F64.mid_points [0; 0x1.fffffffffffffp-1; 1] = [0x1.fffffffffffffp-2; 1]
  /\ F64.nearest_idx [0; 0x1.fffffffffffffp-1; 1]
                     (nth 2 [0; 0x1.fffffffffffffp-1; 1] 0) = 1%nat.
Proof. repeat split; reflexivity. Qed.

(** C5, as the code behaves.  [nearest_idx grid grid[g] = g] for every [g]
    on every grid whose computed midpoints lie strictly between their two
    grid values; the notebook's grid is such a grid.  Rounding can put a
    midpoint on a grid value, and then a grid point resolves to its
    neighbour. *)
Theorem nearest_idx_grid_point_inside :
  (forall (grid : list float) (g : nat),
     midpoints_inside grid = true -> (g < length grid)%nat ->
     F64.nearest_idx grid (nth g grid 0) = g)
  /\ midpoints_inside notebook_grid = true.
Proof.
  split; [|exact notebook_grid_midpoints].
  intros grid g Hm Hg. now apply f64_nearest_idx_grid_point.
Qed.

Lemma nearest_idx_grid_point_inside_witness :
  F64.nearest_idx [0; 0x1p-2; 0x1p-1; 0x1.8p-1; 1]
                  (nth 3 [0; 0x1p-2; 0x1p-1; 0x1.8p-1; 1] 0) = 3%nat.
Proof.
  apply (proj1 nearest_idx_grid_point_inside
           [0; 0x1p-2; 0x1p-1; 0x1.8p-1; 1] 3%nat).
  - reflexivity.
  - simpl. lia.
Defined.

(** ** The belief grid in binary64 *)




(** ** The transition matrix in binary64 *)




(** C2, counterexample.  On the grid [0, 1e-20] the two computed distances
    to 0.5 are both rounded to 0.5 and argmin takes the first: the door rows
    lead to index 0, although the grid value at index 1 is nearer to 1/2. *)
Lemma open_rows_target_not_nearest :
  exists m q0 q1,
    F64.tiger_mdp [0; 0x1.79ca10c924223p-67] 0x1.e666666666666p-1 = Ok m
    /\ F64.coo_row (F64.ddp_Q m) (sa_index 0 1) = [(sa_index 0 1, 0%nat, 1)]
    /\ F64.half_distance 0 = 0x1p-1
    /\ F64.half_distance 0x1.79ca10c924223p-67 = 0x1p-1
    /\ F64.F2Q 0 = Some q0
    /\ F64.F2Q 0x1.79ca10c924223p-67 = Some q1
    /\ (Qabs (q1 - (1 # 2)) < Qabs (q0 - (1 # 2)))%Q.
Proof. do 3 eexists. repeat split; reflexivity. Qed.

(** C2, as the code behaves.  For every grid of at least one point and every
    discount factor in [0,1], each door row of the matrix [tiger_mdp]
    returns has exactly one entry, of value 1, and its target is the argmin
    of the computed distances [|b - 0.5|]: the first NaN distance if there
    is one, otherwise the first grid index whose computed distance is
    least.  When the grid holds the value 0.5 and no distance is NaN, the
    computed distance of the target is 0.  The distances are rounded, so
    the target need not be the grid point nearest to 1/2. *)
Theorem open_rows_reset_target (grid : list float) (beta : float) :
  grid <> [] -> (0 <=? beta) = true -> (beta <=? 1) = true ->
  exists m h,
    F64.tiger_mdp grid beta = Ok m
    /\ F64.prob_half_idx grid = Ok h
    /\ (h < length grid)%nat
    /\ (forall g a, (g < length grid)%nat -> a = 1%nat \/ a = 2%nat ->
          F64.coo_row (F64.ddp_Q m) (sa_index g a) = [(sa_index g a, h, 1)])
    /\ first_min (map F64.half_distance grid) h
    /\ ((exists j, (j < length grid)%nat /\ nth j grid 0 = 0x1p-1) ->
        is_nan (F64.half_distance (nth h grid 0)) = true
        \/ F64.half_distance (nth h grid 0) = 0).
Proof.
  intros Hne H0 H1.
  destruct (f64_tiger_mdp_closed grid beta Hne H0 H1)
    as [h [Hh [Hlt [Hmin Hm]]]].
  eexists. exists h. split; [exact Hm|]. split; [exact Hh|].
  split; [exact Hlt|]. cbn [F64.ddp_Q]. split; [|split; [exact Hmin|]].
  - intros g a Hg Ha. now apply f64_merged_open_row.
  - intros [j [Hj Hhalf]].
    destruct Hmin as [_ [Hle _]].
    specialize (Hle j). rewrite length_map in Hle. specialize (Hle Hj).
    rewrite !f64_nth_map in Hle by assumption.
    destruct Hle as [Hn|Hle]; [now left|right].
    rewrite Hhalf in Hle.
    change (F64.half_distance 0x1p-1) with 0 in Hle.
    unfold F64.half_distance in Hle |- *. now apply abs_leb_zero.
Qed.

Lemma open_rows_reset_target_witness :
  exists m h,
    F64.tiger_mdp [0; 0x1p-2; 0x1p-1; 0x1.8p-1; 1] 0x1.e666666666666p-1 = Ok m
    /\ F64.prob_half_idx [0; 0x1p-2; 0x1p-1; 0x1.8p-1; 1] = Ok h
    /\ F64.coo_row (F64.ddp_Q m) (sa_index 4 2) = [(sa_index 4 2, h, 1)].
Proof.
  destruct (open_rows_reset_target
              [0; 0x1p-2; 0x1p-1; 0x1.8p-1; 1] 0x1.e666666666666p-1)
    as [m [h [Hm [Hh [_ [Hrow _]]]]]].
  - discriminate.
  - reflexivity.
  - reflexivity.
  - exists m, h. split; [exact Hm|]. split; [exact Hh|].
    apply Hrow; [simpl; lia|now right].
Defined.

